(** * file_finder: the concurrent search pipeline of [main.cpp]

    A shallow embedding of the walker ([PathFinder]), the filter workers
    ([Processor]), the result store ([SearchResultContainer]) and the
    coordinator ([do_main]), with the properties the specification states
    about them.

    Conventions.
    - A [std::string] is a [string]; a [fs::path] is the [string] of its
      generic (slash-separated) form, compared as a string.
    - A [std::thread::id] is a number, printed in decimal.
    - Shared atomics read by one component and written by another are read
      through an oracle (the value seen at each read) in the sequential
      models, and live in the shared state of the interleaving model.
    - [logger.debug] writes nothing under the global logger's level
      (lemma [debug_is_silent]), so the debug calls are left out of the
      models of the functions that make them. *)

From Stdlib Require Import ZArith Ascii String List Lia Bool.
From stdpp Require Import base option list gmap strings pretty fin_maps.

Local Open Scope string_scope.
Local Open Scope list_scope.

(** ** [std::string::find] *)

Module Str.

(** [starts_with t s]: [s] begins with the characters of [t]
    (the comparison [find] makes at one position). *)
Fixpoint starts_with (t s : string) : bool :=
  match t, s with
  | EmptyString, _ => true
  | String _ _, EmptyString => false
  | String a t', String b s' => if Ascii.eqb a b then starts_with t' s' else false
  end.

(** [find_from s t pos]: the lowest position [>= pos] of an occurrence of
    [t], where [s] is the text from position [pos] on; [None] is [npos]. *)
Fixpoint find_from (s t : string) (pos : nat) : option nat :=
  if starts_with t s then Some pos
  else match s with
       | EmptyString => None
       | String _ s' => find_from s' t (S pos)
       end.

(** [s.find(t)], with [npos] as [None]. *)
Definition find (s t : string) : option nat := find_from s t 0.

(** The condition [s.find(t) != std::string::npos]. *)
Definition found (s t : string) : bool :=
  match find s t with Some _ => true | None => false end.

(** [t] occurs in [s] as a contiguous run of characters. *)
Definition contains (s t : string) : Prop :=
  exists pre post : string, s = pre +:+ t +:+ post.

End Str.

(** ** Paths and directory entries *)

Definition separator : ascii := "/"%char.

Fixpoint has_separator (p : string) : bool :=
  match p with
  | EmptyString => false
  | String c rest => if Ascii.eqb c separator then true else has_separator rest
  end.

(** [path::filename()]: the text after the last separator. *)
Fixpoint filename (p : string) : string :=
  match p with
  | EmptyString => EmptyString
  | String _ rest => if has_separator p then filename rest else p
  end.

(** A [fs::directory_entry], as far as the program looks at it. *)
Record directory_entry := DirectoryEntry {
  path : string;
  is_directory : bool
}.

Definition thread_id := N.

(** ** Text written to [std::cout] *)

Definition nl : string := String "010"%char EmptyString.
Definition tab : string := String "009"%char EmptyString.
Definition dquote : ascii := "034"%char.
Definition backslash : ascii := "092"%char.

Definition join_all (chunks : list string) : string :=
  foldr String.append EmptyString chunks.

(** [operator<<] of a [std::thread::id]. *)
Definition show_thread_id (t : thread_id) : string := pretty t.

(** [std::quoted]: the text between double quotes, a backslash before
    every double quote and backslash. [operator<<] of a [fs::path] writes
    the path this way. *)
Fixpoint escape (s : string) : string :=
  match s with
  | EmptyString => EmptyString
  | String c rest =>
      if Ascii.eqb c dquote || Ascii.eqb c backslash
      then String backslash (String c (escape rest))
      else String c (escape rest)
  end.

Definition quoted (s : string) : string :=
  String dquote (escape s) +:+ String dquote EmptyString.

(** ** [Logger] *)

Module Logger.

Inductive Level := Silent | Error | Warning | Info | Debug.

(** The enumerators' values. *)
Definition level_value (level : Level) : Z :=
  match level with
  | Silent => 0 | Error => 100 | Warning => 200 | Info => 300 | Debug => 400
  end.

Definition get_prefix (level : Level) : string :=
  match level with
  | Silent => "[SILENT]"
  | Error => "[ERROR]"
  | Warning => "[WARNING]"
  | Info => "[INFO]"
  | Debug => "[DEBUG]"
  end.

(** [log]: the text written to [std::cout] by thread [tid] through a logger
    of level [logging_level]. The [flush] argument changes no text. *)
Definition log (logging_level : Level) (tid : thread_id)
    (message : string) (level : Level) (newline : bool) : string :=
  let prefix := get_prefix level in
  if (level_value level <=? level_value logging_level)%Z then
    if newline
    then prefix +:+ " " +:+ message +:+ " (" +:+ show_thread_id tid +:+ ")" +:+ nl
    else prefix +:+ " " +:+ message +:+ " (" +:+ show_thread_id tid +:+ ")"
  else EmptyString.

(** The global [logger{Logger::Level::Info}]. *)
Definition logger : Level := Info.

Definition debug (tid : thread_id) (message : string) : string :=
  log logger tid message Debug true.

Definition info (tid : thread_id) (message : string) : string :=
  log logger tid message Info true.

End Logger.

(** ** [SearchResult] and [SearchResultContainer] *)

Record SearchResult := mkSearchResult {
  entry : directory_entry;
  substring : string;
  id : thread_id
}.

Abbreviation ResultValue := (string * thread_id)%type.

Module SearchResultContainer.

Record t := Build {
  store : gmap string (list ResultValue);
  should_continue : bool
}.

(** [SearchResultContainer()] *)
Definition init : t := {| store := ∅; should_continue := false |}.

(** [store[result.entry.path()].emplace_back(result.substring, result.id)]:
    [operator[]] creates the empty vector of an absent key. *)
Definition push (result : SearchResult) (c : t) : t :=
  let key := path (entry result) in
  {| store := <[key := default [] (store c !! key) ++ [(substring result, id result)]]>
                (store c);
     should_continue := should_continue c |}.

Definition value_line (result : ResultValue) : string :=
  tab +:+ String dquote EmptyString +:+ result.1 +:+ String dquote EmptyString
      +:+ tab +:+ "(" +:+ show_thread_id result.2 +:+ ")" +:+ nl.

Definition key_block (kv : string * list ResultValue) : string :=
  quoted kv.1 +:+ nl +:+ join_all (value_line <$> kv.2).

(** The text gathered in [ss] by the loop of [dump]: the keys in the
    iteration order of the map (unspecified for [std::unordered_map]; here
    that of [map_to_list]). *)
Definition snapshot (store : gmap string (list ResultValue)) : string :=
  join_all (key_block <$> map_to_list store).

(** [dump()] called by thread [tid]: the container afterwards and the text
    written to [std::cout], the logger's line first. *)
Definition dump (tid : thread_id) (c : t) : t * string :=
  let line := Logger.info tid "dump start" in
  let ss := snapshot (store c) in
  ({| store := ∅; should_continue := should_continue c |}, line +:+ ss).

(** [elapsed > ms] with [start] and [finish] in clock ticks of one
    nanosecond and [ms] in milliseconds. *)
Definition elapsed_exceeds (start finish ms : Z) : bool :=
  (ms * 1000000 <? finish - start)%Z.

(** The state of the loop of [periodic_dump]. *)
Record periodic := Periodic {
  start : Z;
  container : t;
  cout : string
}.

(** One pass of the body of the loop of [periodic_dump]: [finish] is the
    clock read at the top, [now] the clock read after the dump. *)
Definition periodic_iteration (tid : thread_id) (ms finish now : Z)
    (st : periodic) : periodic :=
  if elapsed_exceeds (start st) finish ms then
    let '(c, out) := dump tid (container st) in
    {| start := now; container := c; cout := cout st +:+ out |}
  else st.

End SearchResultContainer.

(** ** [Processor]: a filter worker *)

Module Processor.

(** The [container] pointer is the shared [SearchResultContainer], passed
    to [process] as an argument. *)
Record t := Build {
  target : string;
  queue : list directory_entry;
  should_continue : bool
}.

(** [Processor(container, search_string)] *)
Definition make (search_string : string) : t :=
  {| target := search_string; queue := []; should_continue := false |}.

(** [queue.push(entry)] *)
Definition push (entry : directory_entry) (p : t) : t :=
  {| target := target p; queue := queue p ++ [entry];
     should_continue := should_continue p |}.

Definition queue_size (p : t) : nat := length (queue p).

(** The test of [process] on one entry and the record it builds:
    [Some r] when [container->push(r)] is called for the entry. *)
Definition match_record (tid : thread_id) (target : string)
    (entry : directory_entry) : option SearchResult :=
  if Str.found (filename (path entry)) target
  then Some (mkSearchResult entry target tid)
  else None.

(** The body of the loop of [process] on [queue.front()], before the pop. *)
Definition process_front (tid : thread_id) (target : string)
    (entry : directory_entry) (c : SearchResultContainer.t) : SearchResultContainer.t :=
  match match_record tid target entry with
  | Some result => SearchResultContainer.push result c
  | None => c
  end.

(** [while (queue.size() > 0) { front; test; push; pop }]: the queue and the
    container when the loop ends. *)
Fixpoint process_loop (tid : thread_id) (target : string)
    (queue : list directory_entry) (c : SearchResultContainer.t)
    : list directory_entry * SearchResultContainer.t :=
  match queue with
  | [] => (queue, c)
  | entry :: rest => process_loop tid target rest (process_front tid target entry c)
  end.

(** [process()] run by thread [tid]. The queue's lock is held from the
    first line to the last, so no [push] falls inside a pass. *)
Definition process (tid : thread_id) (p : t) (c : SearchResultContainer.t)
    : t * SearchResultContainer.t :=
  let '(q, c') := process_loop tid (target p) (queue p) c in
  ({| target := target p; queue := q; should_continue := should_continue p |}, c').

End Processor.

(** ** [PathFinder]: the walker *)

Module PathFinder.

(** How [list_paths] ends inside its [std::packaged_task]: a return code,
    or an exception of the directory iterator kept in the future. *)
Inductive outcome := Returned (code : Z) | Threw.

(** What [fs::recursive_directory_iterator] yields for a root and options:
    the entries in traversal order, then the end of the range, or a
    [filesystem_error] thrown by the increment after the last of them. *)
Record listing := Listing {
  entries : list directory_entry;
  fails : bool
}.

(** The inner loop over [*processors] for one entry: the processors
    afterwards and the calls [proc.push(entry)] made, each with the index
    of its processor in the vector, in the order they are made. *)
Fixpoint fan_out (entry : directory_entry) (procs : list Processor.t) (i : nat)
    : list Processor.t * list (nat * directory_entry) :=
  match procs with
  | [] => ([], [])
  | proc :: rest =>
      let '(rest', calls) := fan_out entry rest (S i) in
      if is_directory entry
      then (proc :: rest', calls)
      else (Processor.push entry proc :: rest', (i, entry) :: calls)
  end.

(** The range-for of [list_paths]. [should_continue_at k] is the value of
    the walker's flag at the check made for the entry of index [k] (the
    flag is written by [stop_func] in another thread). *)
Fixpoint list_paths_loop (should_continue_at : nat -> bool)
    (entries : list directory_entry) (fails : bool) (procs : list Processor.t)
    : outcome * list Processor.t * list (nat * directory_entry) :=
  match entries with
  | [] => (if fails then Threw else Returned 0, procs, [])
  | entry :: rest =>
      if should_continue_at 0%nat then
        let '(procs', calls) := fan_out entry procs 0 in
        let '(result, procs'', calls') :=
          list_paths_loop (fun k => should_continue_at (S k)) rest fails procs' in
        (result, procs'', calls ++ calls')
      else (Returned 1, procs, [])
  end.

Definition list_paths (should_continue_at : nat -> bool) (l : listing)
    (procs : list Processor.t)
    : outcome * list Processor.t * list (nat * directory_entry) :=
  list_paths_loop should_continue_at (entries l) (fails l) procs.

End PathFinder.

(** ** The store's mutex, one instruction at a time

    [push] and [dump] as the sequences of operations they make on the
    store, its mutex and [std::cout], to see what happens while the mutex
    is held. A [std::scoped_lock] acquires in its constructor, at the top
    of the function, and releases at the end of the function's scope. *)

Module StoreLock.

Inductive instr :=
| Acquire                         (* std::scoped_lock lock(store_mutex) *)
| LogInfo (message : string)      (* logger.info(message, true, true) *)
| Format                          (* the loop filling ss *)
| Clear                           (* store.clear() *)
| Emit                            (* std::osyncstream(std::cout) << ss.str(), flush *)
| EmplaceBack (result : SearchResult)
| Release.                        (* end of the lock's scope *)

Definition dump_body : list instr :=
  [Acquire; LogInfo "dump start"; Format; Clear; Emit; Release].

Definition push_body (result : SearchResult) : list instr :=
  [Acquire; EmplaceBack result; Release].

(** A thread inside a call: what is left of the body, and its local [ss]. *)
Record thread := Thread {
  tid : thread_id;
  code : list instr;
  ss : string
}.

Record state := State {
  container : SearchResultContainer.t;
  owner : option thread_id;        (* who holds store_mutex *)
  cout : string
}.

Definition call (t : thread_id) (body : list instr) : thread :=
  {| tid := t; code := body; ss := EmptyString |}.

(** One instruction of thread [t]; [None] when [t] is blocked on the mutex
    or has nothing left to run. *)
Definition exec (t : thread) (s : state) : option (thread * state) :=
  match code t with
  | [] => None
  | i :: rest =>
      let t' := {| tid := tid t; code := rest; ss := ss t |} in
      match i with
      | Acquire =>
          match owner s with
          | Some _ => None
          | None => Some (t', {| container := container s; owner := Some (tid t); cout := cout s |})
          end
      | LogInfo message =>
          Some (t', {| container := container s; owner := owner s;
                       cout := cout s +:+ Logger.info (tid t) message |})
      | Format =>
          Some ({| tid := tid t; code := rest;
                   ss := SearchResultContainer.snapshot (SearchResultContainer.store (container s)) |}, s)
      | Clear =>
          Some (t', {| container :=
                         {| SearchResultContainer.store := ∅;
                            SearchResultContainer.should_continue :=
                              SearchResultContainer.should_continue (container s) |};
                       owner := owner s; cout := cout s |})
      | Emit =>
          Some (t', {| container := container s; owner := owner s; cout := cout s +:+ ss t |})
      | EmplaceBack result =>
          Some (t', {| container := SearchResultContainer.push result (container s);
                       owner := owner s; cout := cout s |})
      | Release =>
          Some (t', {| container := container s; owner := None; cout := cout s |})
      end
  end.

(** [n] instructions of [t], with no other thread running in between. *)
Fixpoint exec_n (n : nat) (t : thread) (s : state) : option (thread * state) :=
  match n with
  | O => Some (t, s)
  | S n' =>
      match exec t s with
      | Some (t', s') => exec_n n' t' s'
      | None => None
      end
  end.

(** The next instruction of [t] is the emission of the snapshot. *)
Definition at_emit (t : thread) : bool :=
  match code t with
  | Emit :: _ => true
  | _ => false
  end.

End StoreLock.

(** ** [do_main]: the coordinator and the threads it starts

    The threads of [do_main] as state machines over one shared state, run
    by a schedule that names the thread making each step. A step makes at
    most one operation on a queue or on the store, with the tests of flags
    that lead to it: [push] and [dump] hold the store's mutex from their
    first line to their last, so each is one step; [process] holds its
    queue's mutex for a whole pass, made of one step per entry, during
    which the walker cannot push to that queue. The flags set by
    [stop_func], the flags read by the barrier and the sizes summed by the
    drain-wait are each written or read in one step. Sleeps change nothing
    and are left out. A thread that waits ([join], [std::getline], a held
    mutex) has no step until what it waits for is there; a spinning loop
    steps without changing the state. *)

Module Main.

Definition EXIT_SUCCESS : Z := 0.
Definition EXIT_FAILURE : Z := 1.

(** [dump_period], in milliseconds. *)
Definition dump_period : Z := 9500.

(** The search thread, in [list_paths]. *)
Inductive walker_pc :=
| WCreated (entries : list directory_entry)         (* not yet in list_paths *)
| WNext (rest : list directory_entry)              (* at the iterator's step *)
| WPush (entry : directory_entry) (j : nat) (rest : list directory_entry)
                                                   (* inner loop, at processor j *)
| WDone (result : PathFinder.outcome).

(** A processor thread, in [run]. *)
Inductive worker_pc :=
| KCreated            (* not yet in run *)
| KCheck              (* at the loop condition of run *)
| KDrain              (* in process, holding queue_mutex *)
| KDone.

(** The dump thread, in [periodic_dump]; [DCheck start] is at the loop
    condition with the timer's [start]. *)
Inductive dumper_pc := DCreated | DCheck (start : Z) | DDone.

(** The command reader. *)
Inductive ui_pc :=
| UNone               (* not created *)
| UCheck              (* at the loop condition *)
| URead               (* in std::getline *)
| UDone.

(** The main thread, from the start-up barrier on. *)
Inductive coord_pc :=
| CBarrier | CSpawnUI | CWaitSearch | CWaitQueues | CFinalDump | CStop
| CJoinSearch | CJoinProc (k : nat) | CJoinDump | CDetachUI
| CReturned (status : Z).

Record t := Build {
  should_continue : bool;            (* the local atomic of do_main *)
  finder_flag : bool;                (* path_finder->should_continue *)
  fails : bool;                      (* the iterator throws after the last entry *)
  walker : walker_pc;
  workers : list (Processor.t * worker_pc);
  container : SearchResultContainer.t;
  dumper : dumper_pc;
  ui : ui_pc;
  stdin : list string;               (* the lines typed and not yet read *)
  cout : string;
  coord : coord_pc
}.

Definition set_walker (w : walker_pc) (s : t) : t :=
  Build (should_continue s) (finder_flag s) (fails s) w (workers s) (container s)
        (dumper s) (ui s) (stdin s) (cout s) (coord s).

Definition set_workers (ws : list (Processor.t * worker_pc)) (s : t) : t :=
  Build (should_continue s) (finder_flag s) (fails s) (walker s) ws (container s)
        (dumper s) (ui s) (stdin s) (cout s) (coord s).

Definition set_container (c : SearchResultContainer.t) (s : t) : t :=
  Build (should_continue s) (finder_flag s) (fails s) (walker s) (workers s) c
        (dumper s) (ui s) (stdin s) (cout s) (coord s).

Definition set_dumper (d : dumper_pc) (s : t) : t :=
  Build (should_continue s) (finder_flag s) (fails s) (walker s) (workers s) (container s)
        d (ui s) (stdin s) (cout s) (coord s).

Definition set_ui (u : ui_pc) (s : t) : t :=
  Build (should_continue s) (finder_flag s) (fails s) (walker s) (workers s) (container s)
        (dumper s) u (stdin s) (cout s) (coord s).

Definition set_stdin (lines : list string) (s : t) : t :=
  Build (should_continue s) (finder_flag s) (fails s) (walker s) (workers s) (container s)
        (dumper s) (ui s) lines (cout s) (coord s).

Definition write (text : string) (s : t) : t :=
  Build (should_continue s) (finder_flag s) (fails s) (walker s) (workers s) (container s)
        (dumper s) (ui s) (stdin s) (cout s +:+ text) (coord s).

Definition set_coord (c : coord_pc) (s : t) : t :=
  Build (should_continue s) (finder_flag s) (fails s) (walker s) (workers s) (container s)
        (dumper s) (ui s) (stdin s) (cout s) c.

Definition set_flags (main finder : bool) (s : t) : t :=
  Build main finder (fails s) (walker s) (workers s) (container s)
        (dumper s) (ui s) (stdin s) (cout s) (coord s).

(** Thread identities: any distinct numbers. *)
Definition main_tid : thread_id := 0%N.
Definition dump_tid : thread_id := 1%N.
Definition ui_tid : thread_id := 2%N.
Definition worker_tid (i : nat) : thread_id := N.of_nat (3 + i).

Definition set_proc_flag (b : bool) (w : Processor.t * worker_pc) : Processor.t * worker_pc :=
  ({| Processor.target := Processor.target w.1;
      Processor.queue := Processor.queue w.1;
      Processor.should_continue := b |}, w.2).

Definition set_container_flag (b : bool) (c : SearchResultContainer.t) : SearchResultContainer.t :=
  {| SearchResultContainer.store := SearchResultContainer.store c;
     SearchResultContainer.should_continue := b |}.

(** [SearchResultContainer::dump] called by thread [tid]. *)
Definition do_dump (tid : thread_id) (s : t) : t :=
  let '(c, out) := SearchResultContainer.dump tid (container s) in
  write out (set_container c s).

(** [stop_func] called by thread [tid]. *)
Definition stop_func (tid : thread_id) (s : t) : t :=
  let s := write (Logger.info tid "ending") s in
  let s := set_flags false false s in
  let s := set_workers (set_proc_flag false <$> workers s) s in
  set_container (set_container_flag false (container s)) s.

(** The condition of the start-up barrier. *)
Definition ready (s : t) : bool :=
  should_continue s && finder_flag s
  && forallb (fun w => Processor.should_continue w.1) (workers s)
  && SearchResultContainer.should_continue (container s).

(** The sum of [queue_size()] over the processors (sizes far below the
    range of the [int] accumulator). *)
Definition total_queue_size (s : t) : nat :=
  foldr (fun w acc => Processor.queue_size w.1 + acc)%nat 0%nat (workers s).

Definition walker_done (s : t) : bool :=
  match walker s with WDone _ => true | _ => false end.

Definition walker_step (s : t) : option t :=
  match walker s with
  | WCreated entries =>
      Some (set_walker (WNext entries) (set_flags (should_continue s) true s))
  | WNext [] =>
      Some (set_walker (WDone (if fails s then PathFinder.Threw else PathFinder.Returned 0)) s)
  | WNext (entry :: rest) =>
      if finder_flag s
      then Some (set_walker (WPush entry 0 rest) s)
      else Some (set_walker (WDone (PathFinder.Returned 1)) s)
  | WPush entry j rest =>
      match workers s !! j with
      | None => Some (set_walker (WNext rest) s)
      | Some (p, pc) =>
          if is_directory entry then Some (set_walker (WPush entry (S j) rest) s)
          else match pc with
               | KDrain => None
               | _ => Some (set_walker (WPush entry (S j) rest)
                              (set_workers (<[j := (Processor.push entry p, pc)]> (workers s)) s))
               end
      end
  | WDone _ => None
  end.

Definition set_worker (i : nat) (w : Processor.t * worker_pc) (s : t) : t :=
  set_workers (<[i := w]> (workers s)) s.

Definition worker_step (i : nat) (s : t) : option t :=
  match workers s !! i with
  | None => None
  | Some (p, pc) =>
      match pc with
      | KCreated => Some (set_worker i (set_proc_flag true (p, KCheck)) s)
      | KCheck =>
          if Processor.should_continue p
          then Some (set_worker i (p, KDrain) s)
          else Some (set_worker i (p, KDone) s)
      | KDrain =>
          match Processor.queue p with
          | [] => Some (set_worker i (p, KCheck) s)
          | entry :: rest =>
              let c := Processor.process_front (worker_tid i) (Processor.target p)
                         entry (container s) in
              let p' := {| Processor.target := Processor.target p;
                           Processor.queue := rest;
                           Processor.should_continue := Processor.should_continue p |} in
              Some (set_container c (set_worker i (p', KDrain) s))
          end
      | KDone => None
      end
  end.

(** A step of the dump thread; [finish] and [now] are the clock's values
    at the two reads of one pass of the loop. *)
Definition dumper_step (finish now : Z) (s : t) : option t :=
  match dumper s with
  | DCreated =>
      Some (set_dumper (DCheck finish) (set_container (set_container_flag true (container s)) s))
  | DCheck start =>
      if SearchResultContainer.should_continue (container s) then
        let st := SearchResultContainer.periodic_iteration dump_tid dump_period finish now
                    {| SearchResultContainer.start := start;
                       SearchResultContainer.container := container s;
                       SearchResultContainer.cout := cout s |} in
        Some (Build (should_continue s) (finder_flag s) (fails s) (walker s) (workers s)
                (SearchResultContainer.container st)
                (DCheck (SearchResultContainer.start st)) (ui s) (stdin s)
                (SearchResultContainer.cout st) (coord s))
      else Some (set_dumper DDone s)
  | DDone => None
  end.

Definition unknown_command (command : string) : string :=
  "unknown command " +:+ String dquote EmptyString +:+ command
    +:+ String dquote EmptyString +:+ nl.

Definition ui_step (s : t) : option t :=
  match ui s with
  | UNone => None
  | UCheck => if should_continue s then Some (set_ui URead s) else Some (set_ui UDone s)
  | URead =>
      match stdin s with
      | [] => None
      | command :: rest =>
          let s := set_ui UCheck (set_stdin rest s) in
          if String.eqb command "end" || String.eqb command "Exit" then
            Some (stop_func ui_tid s)
          else if String.eqb command "dump" || String.eqb command "Dump" then
            Some (do_dump ui_tid s)
          else Some (write (unknown_command command) s)
      end
  | UDone => None
  end.

Definition coord_step (s : t) : option t :=
  match coord s with
  | CBarrier => if ready s then Some (set_coord CSpawnUI s) else Some s
  | CSpawnUI => Some (set_coord CWaitSearch (set_ui UCheck s))
  | CWaitSearch =>
      if should_continue s && negb (walker_done s)
      then Some s else Some (set_coord CWaitQueues s)
  | CWaitQueues =>
      if should_continue s && (0 <? total_queue_size s)%nat
      then Some s else Some (set_coord CFinalDump s)
  | CFinalDump => Some (set_coord CStop (do_dump main_tid s))
  | CStop => Some (set_coord CJoinSearch (stop_func main_tid s))
  | CJoinSearch => if walker_done s then Some (set_coord (CJoinProc 0) s) else None
  | CJoinProc k =>
      match workers s !! k with
      | None => Some (set_coord CJoinDump s)
      | Some (_, KDone) => Some (set_coord (CJoinProc (S k)) s)
      | Some _ => None
      end
  | CJoinDump =>
      match dumper s with
      | DDone => Some (set_coord CDetachUI s)
      | _ => None
      end
  | CDetachUI => Some (set_coord (CReturned EXIT_SUCCESS) s)
  | CReturned _ => None
  end.

Inductive actor :=
| Coordinator
| Walker
| Worker (i : nat)
| Dumper (finish now : Z)
| UI.

Definition step (a : actor) (s : t) : option t :=
  match a with
  | Coordinator => coord_step s
  | Walker => walker_step s
  | Worker i => worker_step i s
  | Dumper finish now => dumper_step finish now s
  | UI => ui_step s
  end.

Fixpoint run (schedule : list actor) (s : t) : option t :=
  match schedule with
  | [] => Some s
  | a :: rest =>
      match step a s with
      | Some s' => run rest s'
      | None => None
      end
  end.

(** What [do_main] is given: the settings, what the iterator yields for
    [settings.root_dir], and the lines that will be typed. *)
Record input := Input {
  listing : PathFinder.listing;
  substrings : list string;
  typed : list string
}.

(** The state when the main thread reaches the barrier: the dump thread,
    one processor thread per substring and the search thread created. The
    processors are taken where they stand once the vector has stopped
    growing. *)
Definition init (i : input) : t :=
  {| should_continue := true;
     finder_flag := false;
     fails := PathFinder.fails (listing i);
     walker := WCreated (PathFinder.entries (listing i));
     workers := (fun sub => (Processor.make sub, KCreated)) <$> substrings i;
     container := SearchResultContainer.init;
     dumper := DCreated;
     ui := UNone;
     stdin := typed i;
     cout := EmptyString;
     coord := CBarrier |}.

Definition reachable (i : input) (s : t) : Prop :=
  exists schedule, run schedule (init i) = Some s.

Definition worker_done (w : Processor.t * worker_pc) : bool :=
  match w.2 with KDone => true | _ => false end.

Definition dumper_done (s : t) : bool :=
  match dumper s with DDone => true | _ => false end.

Definition ui_done (s : t) : bool :=
  match ui s with UDone => true | _ => false end.

Definition returned (s : t) : option Z :=
  match coord s with CReturned status => Some status | _ => None end.

End Main.

(** ** [ArgParser] *)

Module ArgParser.

(** [get_help_string(exe_name)]: the format string with [{0}] replaced. *)
Definition get_help_string (exe_name : string) : string :=
  "Usage: " +:+ exe_name +:+ " <dir> <substring1>[<substring2> [<substring3>]...]" +:+ nl
  +:+ "Traverses a directory tree and prints out any paths whose "
  +:+ "filenames "
  +:+ "contain the given substrings." +:+ nl
  +:+ "Example: " +:+ exe_name +:+ " D:\\Documents\\Alice report book draft "
  +:+ nl
  +:+ "Options" +:+ nl
  +:+ "--help           Output usage message and exit." +:+ nl
  +:+ "--test           Run tests." +:+ nl
  +:+ "<dir>            Root directory to begin traversing." +:+ nl
  +:+ "<substring1..n>  Substring to search for in file names.".

Record SearchSettings := Settings {
  root_dir : string;
  follow_links : bool;
  substrings : list string
}.

(** The [std::variant] that [parse_args] returns. *)
Inductive command :=
| Search (settings : SearchSettings)
| Test
| Help (message : string).

(** [args[k]], read only where the code has checked the size. *)
Definition arg (args : list string) (k : nat) : string := default EmptyString (args !! k).

Definition invalid_number (exe_name : string) : string :=
  "Invalid number of arguments." +:+ nl +:+ get_help_string exe_name.

Definition root_missing (root : string) : string :=
  "Root path doesn't exist! (" +:+ String dquote EmptyString +:+ root
    +:+ String dquote EmptyString +:+ ")".

(** [parse_args(args)]: the command, or the message of the
    [ArgumentException] thrown. [path_exists] is [fs::exists]. *)
Definition parse_args (path_exists : string -> bool) (args : list string) : command + string :=
  if (length args =? 2)%nat && String.eqb (arg args 1) "--help" then
    inl (Help (get_help_string (arg args 0)))
  else if (length args =? 2)%nat && String.eqb (arg args 1) "--test" then
    inl Test
  else if (length args <? 3)%nat then
    if (length args =? 0)%nat
    then inr (invalid_number "file-finder")
    else inr (invalid_number (arg args 0))
  else
    let root := arg args 1 in
    if negb (path_exists root) then inr (root_missing root)
    else inl (Search {| root_dir := root; follow_links := false;
                        substrings := drop 2 args |}).

End ArgParser.

(** ** The tests of [do_tests] *)

Module Tests.

Record TestResult := Result {
  name : string;
  errors : list string
}.

Definition passed (r : TestResult) : bool := (length (errors r) =? 0)%nat.

(** What a test hands back: its result and the text it wrote, or the
    [ArgumentException] that left it. *)
Inductive thrown (A : Type) :=
| Value (a : A)
| Raise (what : string).
Arguments Value {A} a.
Arguments Raise {A} what.

(** The [std::map] of [test_logging_prefix], in the order of its keys. *)
Definition prefix_table : list (Logger.Level * string) :=
  [(Logger.Silent, "[SILENT]"); (Logger.Error, "[ERROR]");
   (Logger.Warning, "[WARNING]"); (Logger.Info, "[INFO]"); (Logger.Debug, "[DEBUG]")].

Definition test_logging_prefix : TestResult :=
  {| name := "test_logging_prefix";
     errors :=
       foldl (fun errs kv =>
                let prefix := Logger.get_prefix kv.1 in
                if negb (String.eqb prefix kv.2)
                then errs ++ ["Expected '" +:+ kv.2 +:+ "'. Found '" +:+ prefix +:+ "'"]
                else errs)
             [] prefix_table |}.

Definition expect_argument_exception (path_exists : string -> bool) (result : TestResult)
    (args : list string) : TestResult :=
  match ArgParser.parse_args path_exists args with
  | inr _ => result
  | inl _ => {| name := name result;
                errors := errors result ++ ["Expected ArgumentException!"] |}
  end.

Definition test_no_args (path_exists : string -> bool) : TestResult :=
  expect_argument_exception path_exists {| name := "test_no_args"; errors := [] |} [].

Definition test_too_few_args (path_exists : string -> bool) : TestResult :=
  let result := {| name := "test_too_few_args"; errors := [] |} in
  let result := expect_argument_exception path_exists result ["exe_name"] in
  expect_argument_exception path_exists result ["exe_name"; "root_dir"].

(** [ArgVisitor] on a [HelpCommand]: the text written and the status. *)
Definition visit_help (message : string) : string * Z :=
  (message +:+ nl, Main.EXIT_SUCCESS).

(** [test_help]: its result and what it writes. The call of [parse_args]
    is outside any [try]; the only alternative visited is the help. *)
Definition test_help (path_exists : string -> bool) : thrown (TestResult * string) :=
  match ArgParser.parse_args path_exists ["exe_name"; "--help"] with
  | inr what => Raise what
  | inl (ArgParser.Help message) =>
      let '(out, help_return) := visit_help message in
      if negb (help_return =? 0)%Z
      then Value ({| name := "test_help";
                     errors := ["Expected help command to return 0. Instead found "
                                  +:+ pretty help_return] |}, out)
      else Value ({| name := "test_help"; errors := [] |}, out)
  | inl _ =>
      Value ({| name := "test_help"; errors := ["Expected HelpCommand."] |}, EmptyString)
  end.

Definition test_root_dne (path_exists : string -> bool) : TestResult :=
  match ArgParser.parse_args path_exists ["exe_name"; "root_dne"; "arg1"] with
  | inr what =>
      let expected_error := ArgParser.root_missing "root_dne" in
      if negb (String.eqb what expected_error)
      then {| name := "test_root_dne";
              errors := ["Expected error message: '" +:+ expected_error +:+ "'" +:+ tab
                           +:+ "Found error message: '" +:+ what +:+ "'" +:+ tab] |}
      else {| name := "test_root_dne"; errors := [] |}
  | inl _ =>
      {| name := "test_root_dne";
         errors := ["No exception thrown. Expected ArgumentException"] |}
  end.

(** [test_processor_find] returns before its body. *)
Definition test_processor_find : TestResult :=
  {| name := "test_processor_find";
     errors := ["Error: Not Implemented. todo: implement"] |}.

(** The lines [do_tests] writes for one result. *)
Definition report (result : TestResult) : string :=
  name result +:+ " : "
    +:+ (if (0 <? length (errors result))%nat then "Failed" else "Passed") +:+ nl
    +:+ join_all ((fun error => tab +:+ error +:+ nl) <$> errors result).

(** [do_tests()]: the text written and the status returned. *)
Definition do_tests (path_exists : string -> bool) : thrown (string * Z) :=
  match test_help path_exists with
  | Raise what => Raise what
  | Value (help_result, help_out) =>
      let results :=
        [test_logging_prefix; test_no_args path_exists; test_too_few_args path_exists;
         test_root_dne path_exists; help_result; test_processor_find] in
      let failures := foldl (fun n r => n + length (errors r))%nat 0%nat results in
      Value ("running tests" +:+ nl +:+ help_out
               +:+ nl +:+ nl +:+ "---------------" +:+ nl +:+ nl
               +:+ "tests finished" +:+ nl +:+ nl
               +:+ join_all (report <$> results),
             if (failures =? 0)%nat then Main.EXIT_SUCCESS else Main.EXIT_FAILURE)
  end.

End Tests.

(** ** [main] *)

Module Program.

(** What [main] runs in: [path_exists] is [fs::exists]; [ls root follow] is
    what the iterator yields for a root and the choice to follow links;
    [typed] are the lines on [std::cin]; [schedule] orders the threads of
    [do_main]. *)
Record world := World {
  path_exists : string -> bool;
  ls : string -> bool -> PathFinder.listing;
  typed : list string;
  schedule : list Main.actor
}.

Definition input_of (w : world) (settings : ArgParser.SearchSettings) : Main.input :=
  {| Main.listing := ls w (ArgParser.root_dir settings) (ArgParser.follow_links settings);
     Main.substrings := ArgParser.substrings settings;
     Main.typed := typed w |}.

(** [main(argc, argv)]: the text written and the exit status; [None] when
    [do_main] has not returned at the end of the schedule. *)
Definition main (w : world) (argv : list string) : option (string * Z) :=
  match ArgParser.parse_args (path_exists w) argv with
  | inr what => Some (what +:+ nl, Main.EXIT_FAILURE)
  | inl (ArgParser.Help message) => Some (Tests.visit_help message)
  | inl ArgParser.Test =>
      match Tests.do_tests (path_exists w) with
      | Tests.Value r => Some r
      | Tests.Raise what => Some (what +:+ nl, Main.EXIT_FAILURE)
      end
  | inl (ArgParser.Search settings) =>
      match Main.run (schedule w) (Main.init (input_of w settings)) with
      | Some s =>
          match Main.returned s with
          | Some status => Some (Main.cout s, status)
          | None => None
          end
      | None => None
      end
  end.

End Program.

(** ** Vocabulary of the statements *)

(** The record a worker of thread [tid] and target [target] builds for an
    entry. *)
Definition record_of (tid : thread_id) (target : string) (e : directory_entry)
    : SearchResult :=
  mkSearchResult e target tid.

(** The test a worker of target [target] makes on an entry. *)
Definition matching (target : string) (e : directory_entry) : bool :=
  Str.found (filename (path e)) target.

(** A sequence of [push] calls, in the order the store's mutex grants
    them. *)
Definition pushes (results : list SearchResult) (c : SearchResultContainer.t)
    : SearchResultContainer.t :=
  foldl (fun c r => SearchResultContainer.push r c) c results.

Definition value_of (r : SearchResult) : ResultValue := (substring r, id r).

(** The values of the records of path [key], in their order in [results]. *)
Definition values_for (key : string) (results : list SearchResult) : list ResultValue :=
  value_of <$> List.filter (fun r => String.eqb (path (entry r)) key) results.

(** A processor with [added] appended to its queue. *)
Definition enqueue (added : list directory_entry) (p : Processor.t) : Processor.t :=
  {| Processor.target := Processor.target p;
     Processor.queue := Processor.queue p ++ added;
     Processor.should_continue := Processor.should_continue p |}.

Definition is_file (e : directory_entry) : bool := negb (is_directory e).

(** The entries for which the body of the walker's loop runs: those before
    the first check that sees the flag false. *)
Fixpoint visited (should_continue_at : nat -> bool) (entries : list directory_entry)
    : list directory_entry :=
  match entries with
  | [] => []
  | entry :: rest =>
      if should_continue_at 0%nat
      then entry :: visited (fun k => should_continue_at (S k)) rest
      else []
  end.

(** The calls [proc.push(entry)] of one visited entry with [n] processors
    registered: none for a directory, else one per processor, in the order
    of the vector. *)
Definition fan_out_calls (n : nat) (entry : directory_entry)
    : list (nat * directory_entry) :=
  if is_directory entry then [] else (fun j => (j, entry)) <$> seq 0 n.

(** How a walk ends: stopped when an entry was left unvisited. *)
Definition walk_result (should_continue_at : nat -> bool)
    (entries : list directory_entry) (fails : bool) : PathFinder.outcome :=
  if (length (visited should_continue_at entries) <? length entries)%nat
  then PathFinder.Returned 1
  else if fails then PathFinder.Threw else PathFinder.Returned 0.

(** What the main thread has joined when it stands at [pc]: the search
    thread, the first so many processor threads (of [n]), the dump thread. *)
Definition joined_search (pc : Main.coord_pc) : bool :=
  match pc with
  | Main.CJoinProc _ | Main.CJoinDump | Main.CDetachUI | Main.CReturned _ => true
  | _ => false
  end.

Definition joined_procs (pc : Main.coord_pc) (n : nat) : nat :=
  match pc with
  | Main.CJoinProc k => k
  | Main.CJoinDump | Main.CDetachUI | Main.CReturned _ => n
  | _ => 0
  end.

Definition joined_dump (pc : Main.coord_pc) : bool :=
  match pc with
  | Main.CDetachUI | Main.CReturned _ => true
  | _ => false
  end.

(** Where the thread of the processor of index [j] stands. *)
Definition worker_pc_at (s : Main.t) (j : nat) : option Main.worker_pc :=
  snd <$> Main.workers s !! j.

(** Every thread the main thread has joined has ended. *)
Definition joined_have_ended (s : Main.t) : Prop :=
  (joined_search (Main.coord s) = true -> Main.walker_done s = true)
  /\ (forall j, (j < joined_procs (Main.coord s) (length (Main.workers s)))%nat ->
                worker_pc_at s j = Some Main.KDone)
  /\ (joined_dump (Main.coord s) = true -> Main.dumper_done s = true).

(** The only status [do_main] returns. *)
Definition status_is_success (s : Main.t) : Prop :=
  forall status, Main.coord s = Main.CReturned status -> status = Main.EXIT_SUCCESS.

(** No queue holds a directory. *)
Definition queues_hold_files (s : Main.t) : Prop :=
  Forall (fun w => Forall (fun e => is_directory e = false) (Processor.queue w.1))
         (Main.workers s).

(** The queue of the processor of index [j]. *)
Definition queue_at (s : Main.t) (j : nat) : option (list directory_entry) :=
  (fun w => Processor.queue w.1) <$> Main.workers s !! j.

(** ** A run to completion for any input

    Every thread starts, the barrier opens, the walker runs to the end of
    the range, each worker makes one pass, the main thread sees the queues
    empty, flushes, stops and joins. Nothing is read from [std::cin]. *)

(** The steps of the walker over [es] with [n] processors: per entry, the
    check, one step per processor and the end of the inner loop; then the
    end of the range. *)
Definition walk_steps (n : nat) (es : list directory_entry) : nat :=
  (length es * (n + 2) + 1)%nat.

Definition start_schedule (n : nat) : list Main.actor :=
  [Main.Dumper 0 0] ++ (Main.Worker <$> seq 0 n)
  ++ [Main.Walker; Main.Coordinator; Main.Coordinator].

(** One pass of each of [n] workers, over [m] queued entries. *)
Definition drain_schedule (n m : nat) : list Main.actor :=
  mjoin ((fun j => replicate (2 + m) (Main.Worker j)) <$> seq 0 n).

Definition completing_schedule (i : Main.input) : list Main.actor :=
  let n := length (Main.substrings i) in
  let es := PathFinder.entries (Main.listing i) in
  let m := length (List.filter is_file es) in
  start_schedule n
  ++ replicate (walk_steps n es) Main.Walker
  ++ [Main.Coordinator]
  ++ drain_schedule n m
  ++ [Main.Coordinator; Main.Coordinator; Main.Coordinator]
  ++ (Main.Worker <$> seq 0 n) ++ [Main.Dumper 0 0]
  ++ replicate (n + 4) Main.Coordinator.

(** A state of the run: both stop flags equal, the input's [fails] and
    typed lines. *)
Definition running (i : Main.input) (flag : bool) (w : Main.walker_pc)
    (ws : list (Processor.t * Main.worker_pc)) (c : SearchResultContainer.t)
    (d : Main.dumper_pc) (u : Main.ui_pc) (out : string) (pc : Main.coord_pc) : Main.t :=
  {| Main.should_continue := flag; Main.finder_flag := flag;
     Main.fails := PathFinder.fails (Main.listing i);
     Main.walker := w; Main.workers := ws; Main.container := c;
     Main.dumper := d; Main.ui := u; Main.stdin := Main.typed i;
     Main.cout := out; Main.coord := pc |}.

(** The workers as [do_main] creates them. *)
Definition created (i : Main.input) : list (Processor.t * Main.worker_pc) :=
  (fun sub => (Processor.make sub, Main.KCreated)) <$> Main.substrings i.

(** What the steps of a run do to one worker. *)
Definition started (w : Processor.t * Main.worker_pc) : Processor.t * Main.worker_pc :=
  Main.set_proc_flag true (w.1, Main.KCheck).

Definition fanned (e : directory_entry) (w : Processor.t * Main.worker_pc)
    : Processor.t * Main.worker_pc :=
  if is_directory e then w else (Processor.push e w.1, w.2).

Definition fed (added : list directory_entry) (w : Processor.t * Main.worker_pc)
    : Processor.t * Main.worker_pc :=
  (enqueue added w.1, w.2).

Definition drained (w : Processor.t * Main.worker_pc) : Processor.t * Main.worker_pc :=
  ({| Processor.target := Processor.target w.1; Processor.queue := [];
      Processor.should_continue := Processor.should_continue w.1 |}, Main.KCheck).

Definition ended (w : Processor.t * Main.worker_pc) : Processor.t * Main.worker_pc :=
  (w.1, Main.KDone).

(** ** Runs used as examples *)

(** Two files and a directory, two substrings, nothing typed. *)
Definition quiet_input : Main.input :=
  {| Main.listing :=
       PathFinder.Listing [DirectoryEntry "root/report.txt" false;
                           DirectoryEntry "root/notes" true;
                           DirectoryEntry "root/notes/draft.txt" false] false;
     Main.substrings := ["report"; "draft"];
     Main.typed := [] |}.

(** Every thread starts, the walk and the queues run to their end, the
    main thread flushes, stops and joins. *)
Definition natural_completion : list Main.actor :=
  [Main.Dumper 0 0; Main.Worker 0; Main.Worker 1; Main.Walker;
   Main.Coordinator; Main.Coordinator; Main.UI]
  ++ replicate 13 Main.Walker
  ++ replicate 4 (Main.Worker 0) ++ replicate 4 (Main.Worker 1)
  ++ replicate 4 Main.Coordinator
  ++ [Main.Worker 0; Main.Worker 1; Main.Dumper 1 1]
  ++ replicate 6 Main.Coordinator.

(** A root that exists but cannot be iterated (a regular file, say): the
    iterator throws before it yields an entry. *)
Definition failing_input : Main.input :=
  {| Main.listing := PathFinder.Listing [] true;
     Main.substrings := ["a"];
     Main.typed := [] |}.

Definition aborted_walk : list Main.actor :=
  [Main.Dumper 0 0; Main.Worker 0; Main.Walker; Main.Coordinator; Main.Coordinator;
   Main.Walker]
  ++ replicate 4 Main.Coordinator
  ++ [Main.Worker 0; Main.Dumper 1 1]
  ++ replicate 5 Main.Coordinator.

(** The user types [end] before the walker has visited anything. *)
Definition stopped_input : Main.input :=
  {| Main.listing :=
       PathFinder.Listing [DirectoryEntry "root/a.txt" false;
                           DirectoryEntry "root/b.txt" false] false;
     Main.substrings := ["a"];
     Main.typed := ["end"] |}.

Definition stopped_walk : list Main.actor :=
  [Main.Dumper 0 0; Main.Worker 0; Main.Walker; Main.Coordinator; Main.Coordinator;
   Main.UI; Main.UI; Main.Walker]
  ++ replicate 4 Main.Coordinator
  ++ [Main.Worker 0; Main.Dumper 1 1]
  ++ replicate 5 Main.Coordinator.

(** * Properties *)

(** ** Strings *)

Lemma append_cons (c : ascii) (s t : string) :
  String c s +:+ t = String c (s +:+ t).
Proof. reflexivity. Qed.

Lemma append_nil_l (t : string) : EmptyString +:+ t = t.
Proof. reflexivity. Qed.

Lemma append_nil_r (s : string) : s +:+ EmptyString = s.
Proof.
  induction s as [|c s IH]; [reflexivity |].
  now rewrite append_cons, IH.
Qed.

Lemma append_assoc (a b c : string) : (a +:+ b) +:+ c = a +:+ (b +:+ c).
Proof.
  induction a as [|x a IH]; [reflexivity |].
  now rewrite !append_cons, IH.
Qed.

Lemma starts_with_iff (t s : string) :
  Str.starts_with t s = true <-> exists post, s = t +:+ post.
Proof.
  revert s. induction t as [|a t IH]; intros s; simpl.
  - split; [intros _; now exists s | reflexivity].
  - destruct s as [|b s].
    + split; [discriminate | intros [post H]; discriminate].
    + destruct (Ascii.eqb_spec a b) as [->|Hne].
      * rewrite IH. split; intros [post H]; exists post;
          rewrite ?append_cons in *; congruence.
      * split; [discriminate | intros [post H]; rewrite append_cons in H; congruence].
Qed.

Lemma find_from_contains (s t : string) (pos i : nat) :
  Str.find_from s t pos = Some i -> Str.contains s t.
Proof.
  revert pos. induction s as [|c s IH]; intros pos; simpl.
  - destruct (Str.starts_with t EmptyString) eqn:E; [|discriminate].
    intros _. apply starts_with_iff in E as [post E].
    exists EmptyString, post. exact E.
  - destruct (Str.starts_with t (String c s)) eqn:E.
    + intros _. apply starts_with_iff in E as [post E].
      exists EmptyString, post. exact E.
    + intros H. destruct (IH _ H) as (pre & post & ->).
      exists (String c pre), post. reflexivity.
Qed.

Lemma contains_find_from (pre t post : string) (pos : nat) :
  exists i, Str.find_from (pre +:+ t +:+ post) t pos = Some i.
Proof.
  revert pos. induction pre as [|c pre IH]; intros pos.
  - rewrite append_nil_l.
    assert (E : Str.starts_with t (t +:+ post) = true)
      by (apply starts_with_iff; now exists post).
    exists pos. destruct (t +:+ post); simpl; now rewrite E.
  - rewrite append_cons. cbn [Str.find_from].
    destruct (Str.starts_with t (String c (pre +:+ t +:+ post))); [now exists pos |].
    apply IH.
Qed.

(** [s.find(t) != npos] exactly when [t] occurs in [s]. *)
Lemma found_iff_contains (s t : string) :
  Str.found s t = true <-> Str.contains s t.
Proof.
  unfold Str.found, Str.find. split.
  - destruct (Str.find_from s t 0) eqn:E; [|discriminate].
    intros _. eapply find_from_contains, E.
  - intros (pre & post & ->).
    destruct (contains_find_from pre t post 0) as [i ->]. reflexivity.
Qed.

(** The position returned is the lowest one where [t] starts. *)
Lemma find_from_lowest (s t : string) (pos i : nat) :
  Str.find_from s t pos = Some i ->
  exists pre post, s = pre +:+ t +:+ post /\ i = (pos + String.length pre)%nat
    /\ forall pre' post', s = pre' +:+ t +:+ post' ->
         (String.length pre <= String.length pre')%nat.
Proof.
  revert pos i. induction s as [|c s IH]; intros pos i; simpl.
  - destruct (Str.starts_with t EmptyString) eqn:E; [|discriminate].
    intros [= <-]. apply starts_with_iff in E as [post E].
    exists EmptyString, post. simpl. repeat split; [exact E | lia | intros; lia].
  - destruct (Str.starts_with t (String c s)) eqn:E.
    + intros [= <-]. apply starts_with_iff in E as [post E].
      exists EmptyString, post. simpl. repeat split; [exact E | lia | intros; lia].
    + intros H. destruct (IH _ _ H) as (pre & post & -> & -> & Hmin).
      exists (String c pre), post. simpl. repeat split; [lia |].
      intros pre' post' Heq. destruct pre' as [|c' pre'].
      * exfalso. assert (Str.starts_with t (String c (pre +:+ t +:+ post)) = true)
          by (apply starts_with_iff; exists post'; exact Heq).
        congruence.
      * rewrite append_cons in Heq. injection Heq as _ Heq.
        specialize (Hmin _ _ Heq). simpl. lia.
Qed.

Lemma found_empty_target (s : string) : Str.found s EmptyString = true.
Proof. unfold Str.found, Str.find. destruct s; reflexivity. Qed.

(** Debug messages are dropped by the global logger. *)
Lemma debug_is_silent (tid : thread_id) (message : string) :
  Logger.debug tid message = EmptyString.
Proof. reflexivity. Qed.

Lemma info_line (tid : thread_id) (message : string) :
  Logger.info tid message
  = "[INFO] " +:+ message +:+ " (" +:+ show_thread_id tid +:+ ")" +:+ nl.
Proof. reflexivity. Qed.

(** ** The result store *)

Lemma pushes_should_continue (rs : list SearchResult) (c : SearchResultContainer.t) :
  SearchResultContainer.should_continue (pushes rs c)
  = SearchResultContainer.should_continue c.
Proof.
  revert c. induction rs as [|r rs IH]; intros c; [reflexivity |].
  unfold pushes in *. cbn [foldl]. now rewrite IH.
Qed.

Lemma values_for_cons (k : string) (r : SearchResult) (rs : list SearchResult) :
  values_for k (r :: rs)
  = if String.eqb (path (entry r)) k then value_of r :: values_for k rs
    else values_for k rs.
Proof.
  unfold values_for. cbn [List.filter].
  now destruct (String.eqb (path (entry r)) k).
Qed.

(** What the store holds under a key after a sequence of pushes. *)
Lemma pushes_lookup (rs : list SearchResult) (c : SearchResultContainer.t) (k : string) :
  SearchResultContainer.store (pushes rs c) !! k
  = match values_for k rs with
    | [] => SearchResultContainer.store c !! k
    | vs => Some (default [] (SearchResultContainer.store c !! k) ++ vs)
    end.
Proof.
  revert c. induction rs as [|r rs IH]; intros c; [reflexivity |].
  change (pushes (r :: rs) c) with (pushes rs (SearchResultContainer.push r c)).
  rewrite IH, values_for_cons. cbn [SearchResultContainer.push SearchResultContainer.store].
  destruct (String.eqb_spec (path (entry r)) k) as [->|Hne].
  - rewrite lookup_insert_eq.
    change (default [] (Some ?x)) with x.
    destruct (values_for k rs) as [|v vs]; [reflexivity |].
    now rewrite <- app_assoc.
  - now rewrite lookup_insert_ne.
Qed.

Lemma values_for_same_path (k : string) (rs : list SearchResult) :
  (forall r, r ∈ rs -> path (entry r) = k) -> values_for k rs = value_of <$> rs.
Proof.
  induction rs as [|r rs IH]; intros H; [reflexivity |].
  rewrite values_for_cons, (H r) by set_solver.
  rewrite String.eqb_refl, IH by set_solver. reflexivity.
Qed.

Lemma values_for_other_path (k k' : string) (rs : list SearchResult) :
  k <> k' -> (forall r, r ∈ rs -> path (entry r) = k) -> values_for k' rs = [].
Proof.
  intros Hne. induction rs as [|r rs IH]; intros H; [reflexivity |].
  rewrite values_for_cons, (H r) by set_solver.
  destruct (String.eqb_spec k k'); [contradiction |]. apply IH. set_solver.
Qed.

Lemma snapshot_empty : SearchResultContainer.snapshot ∅ = EmptyString.
Proof. unfold SearchResultContainer.snapshot. now rewrite map_to_list_empty. Qed.

Lemma snapshot_singleton (k : string) (vs : list ResultValue) :
  SearchResultContainer.snapshot {[ k := vs ]}
  = quoted k +:+ nl +:+ join_all (SearchResultContainer.value_line <$> vs).
Proof.
  unfold SearchResultContainer.snapshot. rewrite map_to_list_singleton.
  cbn [fmap list_fmap join_all foldr]. rewrite append_nil_r.
  reflexivity.
Qed.

(** Pushes for one path into an empty store leave one key. *)
Lemma pushes_same_path (k : string) (rs : list SearchResult) (c : SearchResultContainer.t) :
  SearchResultContainer.store c = ∅ -> rs <> [] ->
  (forall r, r ∈ rs -> path (entry r) = k) ->
  SearchResultContainer.store (pushes rs c) = {[ k := value_of <$> rs ]}.
Proof.
  intros Hc Hrs Hk. apply map_eq. intros k'. rewrite pushes_lookup, Hc, lookup_empty.
  destruct (decide (k = k')) as [<-|Hne].
  - rewrite lookup_singleton_eq, values_for_same_path by assumption.
    destruct rs; [contradiction | reflexivity].
  - rewrite lookup_singleton_ne by assumption.
    now rewrite (values_for_other_path k k') by assumption.
Qed.

Lemma dump_store (tid : thread_id) (c : SearchResultContainer.t) :
  SearchResultContainer.store (SearchResultContainer.dump tid c).1 = ∅.
Proof. reflexivity. Qed.

Lemma dump_empty (tid : thread_id) (c : SearchResultContainer.t) :
  SearchResultContainer.store c = ∅ ->
  SearchResultContainer.dump tid c = (c, Logger.info tid "dump start").
Proof.
  destruct c as [st flag]. cbn. intros ->.
  unfold SearchResultContainer.dump. cbn [SearchResultContainer.store].
  now rewrite snapshot_empty, append_nil_r.
Qed.

(** The timer is restarted after a flush, and left alone while the period
    has not elapsed. *)
Lemma periodic_iteration_timer (tid : thread_id) (ms finish now : Z)
    (st : SearchResultContainer.periodic) :
  SearchResultContainer.start (SearchResultContainer.periodic_iteration tid ms finish now st)
  = if SearchResultContainer.elapsed_exceeds (SearchResultContainer.start st) finish ms
    then now else SearchResultContainer.start st.
Proof.
  unfold SearchResultContainer.periodic_iteration.
  now destruct (SearchResultContainer.elapsed_exceeds _ _ _).
Qed.

(** [push] holds the store's mutex from its first line to its last: while
    it runs no other [push] and no [dump] can start, and when it ends the
    container is that of [SearchResultContainer.push]. *)
Lemma push_holds_the_lock (c : SearchResultContainer.t) (t : thread_id) (out : string)
    (r : SearchResult) :
  let s0 := {| StoreLock.container := c; StoreLock.owner := None;
               StoreLock.cout := out |} in
  (forall n, (1 <= n <= 2)%nat ->
     exists d s,
       StoreLock.exec_n n (StoreLock.call t (StoreLock.push_body r)) s0 = Some (d, s)
       /\ StoreLock.owner s = Some t
       /\ (forall t' r', StoreLock.exec (StoreLock.call t' (StoreLock.push_body r')) s = None)
       /\ (forall t', StoreLock.exec (StoreLock.call t' StoreLock.dump_body) s = None))
  /\ StoreLock.exec_n 3 (StoreLock.call t (StoreLock.push_body r)) s0
     = Some (StoreLock.call t [],
             {| StoreLock.container := SearchResultContainer.push r c;
                StoreLock.owner := None; StoreLock.cout := out |}).
Proof.
  intros s0. subst s0. split; [|reflexivity].
  intros n Hn. assert (Hcases : (n = 1 \/ n = 2)%nat) by lia.
  destruct Hcases as [->| ->];
    (eexists _, _; split; [reflexivity |];
     split; [reflexivity | split; intros; reflexivity]).
Qed.

(** ** The filter worker *)

Lemma process_loop_spec (tid : thread_id) (target : string)
    (queue : list directory_entry) (c : SearchResultContainer.t) :
  Processor.process_loop tid target queue c
  = ([], pushes (record_of tid target <$> List.filter (matching target) queue) c).
Proof.
  revert c. induction queue as [|e queue IH]; intros c; [reflexivity |].
  cbn [Processor.process_loop List.filter]. rewrite IH.
  unfold Processor.process_front, Processor.match_record, matching.
  destruct (Str.found (filename (path e)) target); reflexivity.
Qed.

Lemma process_loop_fold (tid : thread_id) (target : string)
    (queue : list directory_entry) (c : SearchResultContainer.t) :
  (Processor.process_loop tid target queue c).2
  = foldl (fun c e => Processor.process_front tid target e c) c queue.
Proof.
  revert c. induction queue as [|e queue IH]; intros c; [reflexivity |].
  cbn [Processor.process_loop foldl]. apply IH.
Qed.

Lemma process_spec (tid : thread_id) (p : Processor.t) (c : SearchResultContainer.t) :
  Processor.process tid p c
  = ({| Processor.target := Processor.target p; Processor.queue := [];
        Processor.should_continue := Processor.should_continue p |},
     pushes (record_of tid (Processor.target p)
               <$> List.filter (matching (Processor.target p)) (Processor.queue p)) c).
Proof. unfold Processor.process. now rewrite process_loop_spec. Qed.

Lemma process_should_continue (tid : thread_id) (p : Processor.t)
    (c : SearchResultContainer.t) :
  SearchResultContainer.should_continue (Processor.process tid p c).2
  = SearchResultContainer.should_continue c.
Proof. rewrite process_spec. apply pushes_should_continue. Qed.

Lemma matching_iff_contains (target : string) (e : directory_entry) :
  matching target e = true <-> Str.contains (filename (path e)) target.
Proof. apply found_iff_contains. Qed.

Lemma filter_matching_empty (q : list directory_entry) :
  List.filter (matching EmptyString) q = q.
Proof.
  induction q as [|e q IH]; [reflexivity |].
  cbn [List.filter]. unfold matching at 1. now rewrite found_empty_target, IH.
Qed.

(** ** The walker *)

Lemma push_enqueue (e : directory_entry) (p : Processor.t) :
  Processor.push e p = enqueue [e] p.
Proof. reflexivity. Qed.

Lemma enqueue_nil (p : Processor.t) : enqueue [] p = p.
Proof. destruct p. unfold enqueue. cbn. now rewrite app_nil_r. Qed.

Lemma enqueue_enqueue (a b : list directory_entry) (p : Processor.t) :
  enqueue b (enqueue a p) = enqueue (a ++ b) p.
Proof. unfold enqueue. cbn. now rewrite app_assoc. Qed.

Lemma fan_out_spec (e : directory_entry) (procs : list Processor.t) (i : nat) :
  PathFinder.fan_out e procs i
  = (if is_directory e then procs else Processor.push e <$> procs,
     if is_directory e then [] else (fun j => (j, e)) <$> seq i (length procs)).
Proof.
  revert i. induction procs as [|p procs IH]; intros i.
  - cbn. now destruct (is_directory e).
  - cbn [PathFinder.fan_out]. rewrite IH. now destruct (is_directory e).
Qed.

Lemma fan_out_enqueue (e : directory_entry) (procs : list Processor.t) :
  PathFinder.fan_out e procs 0
  = (enqueue (List.filter is_file [e]) <$> procs, fan_out_calls (length procs) e).
Proof.
  rewrite fan_out_spec. unfold fan_out_calls, is_file. cbn [List.filter].
  destruct (is_directory e); cbn [negb]; [|reflexivity].
  f_equal. induction procs as [|p procs IH]; [reflexivity |].
  cbn [fmap list_fmap]. now rewrite enqueue_nil, <- IH.
Qed.

Lemma list_paths_loop_spec (reads : nat -> bool) (entries : list directory_entry)
    (fails : bool) (procs : list Processor.t) :
  PathFinder.list_paths_loop reads entries fails procs
  = (walk_result reads entries fails,
     enqueue (List.filter is_file (visited reads entries)) <$> procs,
     flat_map (fan_out_calls (length procs)) (visited reads entries)).
Proof.
  revert reads procs. induction entries as [|e entries IH]; intros reads procs.
  - cbn. f_equal. f_equal.
    induction procs as [|p procs IHp]; [reflexivity |].
    cbn [fmap list_fmap]. now rewrite enqueue_nil, <- IHp.
  - unfold walk_result. cbn [PathFinder.list_paths_loop visited].
    destruct (reads 0%nat).
    + rewrite fan_out_enqueue, IH. rewrite length_fmap.
      unfold walk_result. cbn [length flat_map].
      change (S ?a <? S ?b)%nat with (a <? b)%nat.
      f_equal. f_equal.
      rewrite <- list_fmap_compose. apply list_fmap_ext. intros _ p _. cbn.
      rewrite enqueue_enqueue. f_equal.
      cbn [List.filter]. destruct (is_file e); reflexivity.
    + cbn. f_equal. f_equal.
      induction procs as [|p procs IHp]; [reflexivity |].
      cbn [fmap list_fmap]. now rewrite enqueue_nil, <- IHp.
Qed.

Lemma list_paths_spec (reads : nat -> bool) (l : PathFinder.listing)
    (procs : list Processor.t) :
  PathFinder.list_paths reads l procs
  = (walk_result reads (PathFinder.entries l) (PathFinder.fails l),
     enqueue (List.filter is_file (visited reads (PathFinder.entries l))) <$> procs,
     flat_map (fan_out_calls (length procs)) (visited reads (PathFinder.entries l))).
Proof. apply list_paths_loop_spec. Qed.

Lemma fan_out_calls_files (n : nat) (es : list directory_entry) (j : nat)
    (e : directory_entry) :
  (j, e) ∈ flat_map (fan_out_calls n) es -> is_directory e = false /\ e ∈ es.
Proof.
  rewrite list_elem_of_In, in_flat_map. intros (e' & Hin & Hcall).
  unfold fan_out_calls in Hcall. destruct (is_directory e') eqn:Hd; [destruct Hcall |].
  apply list_elem_of_In, list_elem_of_fmap in Hcall as (i & [= -> ->] & _).
  split; [exact Hd | now apply list_elem_of_In].
Qed.

Lemma filter_is_file_forall (es : list directory_entry) :
  Forall (fun e => is_directory e = false) (List.filter is_file es).
Proof.
  apply List.Forall_forall. intros e He. apply filter_In in He as [_ He].
  unfold is_file in He. now destruct (is_directory e).
Qed.

Lemma visited_all (entries : list directory_entry) :
  visited (fun _ => true) entries = entries.
Proof. induction entries as [|e entries IH]; cbn; [reflexivity | now rewrite IH]. Qed.

Lemma visited_stop (reads : nat -> bool) (entries : list directory_entry) (k : nat) :
  (forall j, (j < k)%nat -> reads j = true) -> reads k = false ->
  visited reads entries = take k entries.
Proof.
  revert reads k. induction entries as [|e entries IH]; intros reads k Hbefore Hk.
  - now destruct k.
  - cbn [visited]. destruct k as [|k].
    + now rewrite Hk.
    + rewrite (Hbefore 0%nat) by lia. cbn [take]. f_equal.
      apply IH; [intros j Hj; apply Hbefore; lia | exact Hk].
Qed.

(** ** Steps of the threads of [do_main] *)

Ltac unfold_step H :=
  unfold Main.step, Main.coord_step, Main.walker_step, Main.worker_step,
    Main.dumper_step, Main.ui_step in H.

Ltac split_step H :=
  unfold_step H;
  repeat match type of H with
         | context [match ?x with _ => _ end] => destruct x eqn:?
         end;
  try discriminate H; injection H as <-.

Ltac use_cases :=
  repeat match goal with
         | E : ?x = _ |- context [match ?x with _ => _ end] => rewrite E
         end.

Lemma step_workers_length (a : Main.actor) (s s' : Main.t) :
  Main.step a s = Some s' -> length (Main.workers s') = length (Main.workers s).
Proof.
  intros H. destruct a; split_step H; cbn;
    rewrite ?length_fmap, ?length_insert; reflexivity.
Qed.

Lemma step_coord (a : Main.actor) (s s' : Main.t) :
  Main.step a s = Some s' -> a <> Main.Coordinator -> Main.coord s' = Main.coord s.
Proof.
  intros H Ha. destruct a; [contradiction | ..]; split_step H; reflexivity.
Qed.

Lemma step_walker_done (a : Main.actor) (s s' : Main.t) :
  Main.step a s = Some s' -> Main.walker_done s = true -> Main.walker_done s' = true.
Proof.
  intros H. unfold Main.walker_done.
  destruct a; split_step H; cbn; intros; use_cases; congruence.
Qed.

Lemma step_dumper_done (a : Main.actor) (s s' : Main.t) :
  Main.step a s = Some s' -> Main.dumper_done s = true -> Main.dumper_done s' = true.
Proof.
  intros H. unfold Main.dumper_done.
  destruct a; split_step H; cbn; intros; use_cases; congruence.
Qed.

Lemma worker_pc_at_flag (b : bool) (s : Main.t) (ws : list (Processor.t * Main.worker_pc))
    (j : nat) :
  snd <$> (Main.set_proc_flag b <$> ws) !! j = snd <$> ws !! j.
Proof. rewrite list_lookup_fmap. now destruct (ws !! j). Qed.

Lemma worker_pc_at_insert (ws : list (Processor.t * Main.worker_pc)) (i j : nat)
    (p p' : Processor.t) (pc pc' : Main.worker_pc) :
  ws !! i = Some (p, pc) ->
  snd <$> ws !! j = Some Main.KDone ->
  (pc = Main.KDone -> pc' = Main.KDone) ->
  snd <$> <[i := (p', pc')]> ws !! j = Some Main.KDone.
Proof.
  intros Hi Hj Hpc. destruct (decide (i = j)) as [->|Hne].
  - rewrite list_lookup_insert_eq by (eapply lookup_lt_Some, Hi).
    rewrite Hi in Hj. cbn in *. f_equal. apply Hpc. congruence.
  - now rewrite list_lookup_insert_ne.
Qed.

Lemma step_worker_done (a : Main.actor) (s s' : Main.t) (j : nat) :
  Main.step a s = Some s' ->
  worker_pc_at s j = Some Main.KDone -> worker_pc_at s' j = Some Main.KDone.
Proof.
  intros H Hd. unfold worker_pc_at in *.
  destruct a; split_step H; cbn in *;
    rewrite ?(worker_pc_at_flag false s); try assumption;
    try (eapply worker_pc_at_insert; [eassumption | assumption | congruence]).
Qed.

Lemma init_joined_have_ended (i : Main.input) : joined_have_ended (Main.init i).
Proof.
  split; [discriminate | split; [|discriminate]].
  cbn. intros j Hj. lia.
Qed.

Lemma coord_step_joined_have_ended (s s' : Main.t) :
  Main.coord_step s = Some s' -> joined_have_ended s -> joined_have_ended s'.
Proof.
  intros H (Hsearch & Hprocs & Hdump).
  assert (Hlen := step_workers_length Main.Coordinator s s' H).
  unfold joined_have_ended. rewrite Hlen. clear Hlen.
  unfold Main.coord_step in H. destruct (Main.coord s) eqn:Hpc.
  - revert H. destruct (Main.ready s); intros H; injection H as <-; [|rewrite Hpc];
      (split; [discriminate | split; [cbn; intros; lia | discriminate]]).
  - injection H as <-. split; [discriminate | split; [cbn; intros; lia | discriminate]].
  - revert H. destruct (_ && _); intros H; injection H as <-; [rewrite Hpc|];
      (split; [discriminate | split; [cbn; intros; lia | discriminate]]).
  - revert H. destruct (_ && _); intros H; injection H as <-; [rewrite Hpc|];
      (split; [discriminate | split; [cbn; intros; lia | discriminate]]).
  - injection H as <-. split; [discriminate | split; [cbn; intros; lia | discriminate]].
  - injection H as <-. split; [discriminate | split; [cbn; intros; lia | discriminate]].
  - revert H. destruct (Main.walker_done s) eqn:Hw; intros H; [|discriminate].
    injection H as <-.
    split; [intros _; exact Hw | split; [cbn; intros; lia | discriminate]].
  - cbn in Hsearch, Hprocs. revert H.
    destruct (Main.workers s !! k) as [[p pc]|] eqn:Hk; intros H.
    + destruct pc; try discriminate. injection H as <-.
      split; [intros _; now apply Hsearch | split; [|discriminate]].
      cbn. intros j Hj. destruct (decide (j = k)) as [->|Hne].
      * unfold worker_pc_at. cbn. now rewrite Hk.
      * apply Hprocs. lia.
    + injection H as <-.
      split; [intros _; now apply Hsearch | split; [|discriminate]].
      cbn. intros j Hj. apply Hprocs. apply lookup_ge_None in Hk. lia.
  - cbn in Hsearch, Hprocs. revert H.
    destruct (Main.dumper s) eqn:Hd; intros H; try discriminate.
    injection H as <-.
    split; [intros _; now apply Hsearch | split; [exact Hprocs |]].
    intros _. unfold Main.dumper_done. cbn. now rewrite Hd.
  - cbn in Hsearch, Hprocs, Hdump. injection H as <-.
    split; [intros _; now apply Hsearch | split; [exact Hprocs |]].
    intros _. now apply Hdump.
  - discriminate.
Qed.

Lemma step_joined_have_ended (a : Main.actor) (s s' : Main.t) :
  Main.step a s = Some s' -> joined_have_ended s -> joined_have_ended s'.
Proof.
  intros H Hinv.
  assert (Hcase : a = Main.Coordinator \/ a <> Main.Coordinator)
    by (destruct a; (now left) || (right; discriminate)).
  destruct Hcase as [->|Ha].
  - now apply (coord_step_joined_have_ended s).
  - destruct Hinv as (Hsearch & Hprocs & Hdump). unfold joined_have_ended.
    rewrite (step_coord a s s' H Ha), (step_workers_length a s s' H).
    split; [|split].
    + intros Hj. eapply step_walker_done; eauto.
    + intros j Hj. eapply step_worker_done; eauto.
    + intros Hj. eapply step_dumper_done; eauto.
Qed.

Lemma run_joined_have_ended (schedule : list Main.actor) (s s' : Main.t) :
  Main.run schedule s = Some s' -> joined_have_ended s -> joined_have_ended s'.
Proof.
  revert s. induction schedule as [|a schedule IH]; intros s; cbn.
  - now intros [= <-].
  - destruct (Main.step a s) as [s1|] eqn:Hstep; [|discriminate].
    intros Hrun Hinv. eapply IH; [exact Hrun |]. eapply step_joined_have_ended; eauto.
Qed.

Lemma run_workers_length (schedule : list Main.actor) (s s' : Main.t) :
  Main.run schedule s = Some s' -> length (Main.workers s') = length (Main.workers s).
Proof.
  revert s. induction schedule as [|a schedule IH]; intros s; cbn.
  - now intros [= <-].
  - destruct (Main.step a s) as [s1|] eqn:Hstep; [|discriminate].
    intros Hrun. rewrite (IH _ Hrun). eapply step_workers_length, Hstep.
Qed.

Lemma step_status_is_success (a : Main.actor) (s s' : Main.t) :
  Main.step a s = Some s' -> status_is_success s -> status_is_success s'.
Proof.
  intros H Hinv.
  assert (Hcase : a = Main.Coordinator \/ a <> Main.Coordinator)
    by (destruct a; (now left) || (right; discriminate)).
  destruct Hcase as [->|Ha].
  - unfold status_is_success in *. cbn in H. unfold Main.coord_step in H.
    destruct (Main.coord s) eqn:Hpc; split_step H; cbn; intros; congruence.
  - unfold status_is_success. now rewrite (step_coord a s s' H Ha).
Qed.

Lemma run_status_is_success (schedule : list Main.actor) (s s' : Main.t) :
  Main.run schedule s = Some s' -> status_is_success s -> status_is_success s'.
Proof.
  revert s. induction schedule as [|a schedule IH]; intros s; cbn.
  - now intros [= <-].
  - destruct (Main.step a s) as [s1|] eqn:Hstep; [|discriminate].
    intros Hrun Hinv. eapply IH; [exact Hrun |]. eapply step_status_is_success; eauto.
Qed.

(** ** Invariants of the queues *)

Lemma run_app (a b : list Main.actor) (s : Main.t) :
  Main.run (a ++ b) s = Main.run a s ≫= Main.run b.
Proof.
  revert s. induction a as [|x a IH]; intros s; [reflexivity |].
  cbn [app Main.run]. destruct (Main.step x s); [apply IH | reflexivity].
Qed.

Lemma step_queues_hold_files (a : Main.actor) (s s' : Main.t) :
  Main.step a s = Some s' -> queues_hold_files s -> queues_hold_files s'.
Proof.
  intros H. unfold queues_hold_files.
  destruct a; split_step H; cbn; intros Hq; try assumption;
    try (apply Forall_fmap; eapply Forall_impl; [exact Hq | now intros [p pc]]);
    (apply Forall_insert; [exact Hq |]; cbn;
     match goal with
     | E : Main.workers s !! _ = Some _ |- _ =>
         pose proof (Forall_lookup_1 _ _ _ _ Hq E) as Hw; cbn in Hw
     end).
  (* the walker pushes a file; a worker changes its flag or place, or pops *)
  all: try exact Hw.
  all: try (apply Forall_app; split; [exact Hw | now repeat constructor]).
  match goal with E : Processor.queue _ = _ :: _ |- _ => rewrite E in Hw end.
  now inversion Hw.
Qed.

Lemma run_queues_hold_files (schedule : list Main.actor) (s s' : Main.t) :
  Main.run schedule s = Some s' -> queues_hold_files s -> queues_hold_files s'.
Proof.
  revert s. induction schedule as [|a schedule IH]; intros s; cbn.
  - now intros [= <-].
  - destruct (Main.step a s) as [s1|] eqn:Hstep; [|discriminate].
    intros Hrun Hinv. eapply IH; [exact Hrun |]. eapply step_queues_hold_files; eauto.
Qed.

(** In every state [do_main] can reach, the queues hold no directory. *)
Lemma reachable_queues_hold_files (i : Main.input) (s : Main.t) :
  Main.reachable i s -> queues_hold_files s.
Proof.
  intros [schedule Hrun]. eapply run_queues_hold_files; [exact Hrun |].
  unfold queues_hold_files. cbn. apply Forall_fmap, Forall_forall.
  intros sub _. constructor.
Qed.

(** While a worker is inside [process] it holds its queue's mutex: no step
    of another thread changes its queue. *)
Lemma drain_excludes_push (a : Main.actor) (s s' : Main.t) (j : nat) :
  worker_pc_at s j = Some Main.KDrain ->
  Main.step a s = Some s' -> a <> Main.Worker j ->
  queue_at s' j = queue_at s j.
Proof.
  unfold worker_pc_at, queue_at. intros Hpc H Ha.
  destruct a; split_step H; cbn in *; try reflexivity;
    rewrite ?list_lookup_fmap;
    try (now destruct (Main.workers s !! j) as [[p pc]|]);
    match goal with
    | |- context [<[?i := _]> _ !! j] =>
        destruct (decide (i = j)) as [->|Hne];
        [| now rewrite list_lookup_insert_ne]
    end;
    try congruence;
    match goal with
    | E : Main.workers s !! j = Some _ |- _ => rewrite E in Hpc; cbn in Hpc; try discriminate
    end.
Qed.

(** ** Runs of one thread *)

Lemma set_workers_set_workers (ws ws' : list (Processor.t * Main.worker_pc)) (s : Main.t) :
  Main.set_workers ws (Main.set_workers ws' s) = Main.set_workers ws s.
Proof. reflexivity. Qed.

Lemma set_walker_set_walker (w w' : Main.walker_pc) (s : Main.t) :
  Main.set_walker w (Main.set_walker w' s) = Main.set_walker w s.
Proof. reflexivity. Qed.

Lemma set_workers_id (s : Main.t) : Main.set_workers (Main.workers s) s = s.
Proof. now destruct s. Qed.

Lemma set_walker_id (s : Main.t) : Main.set_walker (Main.walker s) s = s.
Proof. now destruct s. Qed.

Lemma set_coord_id (s : Main.t) : Main.set_coord (Main.coord s) s = s.
Proof. now destruct s. Qed.

Lemma set_container_id (s : Main.t) : Main.set_container (Main.container s) s = s.
Proof. now destruct s. Qed.

(** A kind of step that every worker can make, made by each in turn. *)
Lemma run_each_worker (P : Processor.t * Main.worker_pc -> Prop)
    (f : Processor.t * Main.worker_pc -> Processor.t * Main.worker_pc) :
  (forall s j w, Main.workers s !! j = Some w -> P w ->
                 Main.worker_step j s = Some (Main.set_worker j (f w) s)) ->
  forall l2 l1 s, Forall P l2 ->
    Main.run (Main.Worker <$> seq (length l1) (length l2)) (Main.set_workers (l1 ++ l2) s)
    = Some (Main.set_workers (l1 ++ (f <$> l2)) s).
Proof.
  intros Hstep. induction l2 as [|w l2 IH]; intros l1 s HP.
  - reflexivity.
  - inversion HP as [|? ? Hw HP']; subst.
    cbn [length seq fmap list_fmap Main.run Main.step].
    rewrite (Hstep _ _ w)
      by first [assumption | cbn; apply list_lookup_middle; reflexivity].
    specialize (IH (l1 ++ [f w]) s HP').
    rewrite length_app, Nat.add_1_r, <- !app_assoc in IH. cbn [app] in IH.
    unfold Main.set_worker. cbn [Main.workers Main.set_workers].
    rewrite set_workers_set_workers.
    replace (<[length l1 := f w]> (l1 ++ w :: l2)) with (l1 ++ f w :: l2); [exact IH |].
    rewrite insert_app_r_alt, Nat.sub_diag by lia. reflexivity.
Qed.

Lemma run_all_workers (P : Processor.t * Main.worker_pc -> Prop)
    (f : Processor.t * Main.worker_pc -> Processor.t * Main.worker_pc)
    (s : Main.t) (n : nat) :
  (forall s j w, Main.workers s !! j = Some w -> P w ->
                 Main.worker_step j s = Some (Main.set_worker j (f w) s)) ->
  length (Main.workers s) = n ->
  Forall P (Main.workers s) ->
  Main.run (Main.Worker <$> seq 0 n) s
  = Some (Main.set_workers (f <$> Main.workers s) s).
Proof.
  intros Hstep <- HP.
  pose proof (run_each_worker P f Hstep (Main.workers s) [] s HP) as H.
  cbn [length app] in H. now rewrite set_workers_id in H.
Qed.

(** The inner loop of the walker, from processor [length l1] on, when no
    worker of [l2] is inside [process]. *)
Lemma walker_fan_out_run (e : directory_entry) (rest : list directory_entry) :
  forall l2 l1 s, Forall (fun w => w.2 <> Main.KDrain) l2 ->
    Main.run (replicate (S (length l2)) Main.Walker)
      (Main.set_walker (Main.WPush e (length l1) rest) (Main.set_workers (l1 ++ l2) s))
    = Some (Main.set_walker (Main.WNext rest)
              (Main.set_workers (l1 ++ (fanned e <$> l2)) s)).
Proof.
  induction l2 as [|w l2 IH]; intros l1 s Hfree.
  - cbn [length replicate Main.run Main.step]. unfold Main.walker_step.
    cbn [Main.walker Main.set_walker Main.workers Main.set_workers].
    rewrite lookup_ge_None_2 by (rewrite app_nil_r; lia). reflexivity.
  - inversion Hfree as [|? ? Hw Hfree']; subst.
    specialize (IH (l1 ++ [fanned e w]) s Hfree').
    rewrite length_app, Nat.add_1_r, <- !app_assoc in IH. cbn [app] in IH.
    cbn [length fmap list_fmap].
    change (replicate (S (S (length l2))) Main.Walker)
      with (Main.Walker :: replicate (S (length l2)) Main.Walker).
    cbn [Main.run Main.step]. unfold Main.walker_step at 1.
    cbn [Main.walker Main.set_walker Main.workers Main.set_workers].
    rewrite list_lookup_middle by reflexivity.
    destruct w as [p pc]. unfold fanned in *. cbn [fst snd] in *.
    destruct (is_directory e).
    + exact IH.
    + destruct pc; try contradiction;
        (rewrite insert_app_r_alt, Nat.sub_diag by lia; exact IH).
Qed.

Lemma fanned_fed (e : directory_entry) (es : list directory_entry)
    (w : Processor.t * Main.worker_pc) :
  fed (List.filter is_file es) (fanned e w) = fed (List.filter is_file (e :: es)) w.
Proof.
  unfold fed, fanned, is_file. cbn [List.filter].
  destruct (is_directory e); cbn [negb fst snd]; [reflexivity |].
  now rewrite push_enqueue, enqueue_enqueue.
Qed.

Lemma fed_nil (ws : list (Processor.t * Main.worker_pc)) : fed [] <$> ws = ws.
Proof.
  induction ws as [|[p pc] ws IH]; [reflexivity |].
  cbn [fmap list_fmap]. rewrite IH. unfold fed. cbn [fst snd]. now rewrite enqueue_nil.
Qed.

(** The walker alone, from the first entry to the end of the range, with
    its flag true and no worker inside [process]. *)
Lemma walker_walk_run :
  forall es ws s,
    Forall (fun w => w.2 <> Main.KDrain) ws -> Main.finder_flag s = true ->
    Main.run (replicate (walk_steps (length ws) es) Main.Walker)
      (Main.set_walker (Main.WNext es) (Main.set_workers ws s))
    = Some (Main.set_walker
              (Main.WDone (if Main.fails s then PathFinder.Threw else PathFinder.Returned 0))
              (Main.set_workers (fed (List.filter is_file es) <$> ws) s)).
Proof.
  induction es as [|e es IH]; intros ws s Hfree Hflag.
  - cbn [List.filter]. rewrite fed_nil. reflexivity.
  - unfold walk_steps. cbn [length].
    replace (S (length es) * (length ws + 2) + 1)%nat
      with (1 + (S (length ws) + walk_steps (length ws) es))%nat
      by (unfold walk_steps; lia).
    rewrite replicate_add. cbn [replicate app Main.run Main.step].
    unfold Main.walker_step at 1.
    cbn [Main.walker Main.set_walker Main.finder_flag Main.set_workers]. rewrite Hflag.
    rewrite replicate_add, run_app.
    pose proof (walker_fan_out_run e es ws [] s Hfree) as Hfan.
    cbn [length app] in Hfan.
    rewrite set_walker_set_walker, Hfan. cbn [mbind option_bind].
    specialize (IH (fanned e <$> ws) s).
    rewrite length_fmap in IH. rewrite IH; [| |exact Hflag].
    + f_equal. f_equal. f_equal. rewrite <- list_fmap_compose.
      apply list_fmap_ext. intros _ w _. apply fanned_fed.
    + apply Forall_fmap. eapply Forall_impl; [exact Hfree |].
      intros [p pc] H. unfold fanned. cbn. now destruct (is_directory e).
Qed.

Lemma set_container_set_worker (c c' : SearchResultContainer.t) (j : nat)
    (w w' : Processor.t * Main.worker_pc) (s : Main.t) :
  Main.set_container c (Main.set_worker j w (Main.set_container c' (Main.set_worker j w' s)))
  = Main.set_container c (Main.set_worker j w s).
Proof.
  unfold Main.set_container, Main.set_worker, Main.set_workers. cbn.
  now rewrite list_insert_insert_eq.
Qed.

Lemma drained_empty (p : Processor.t) (pc : Main.worker_pc) :
  Processor.queue p = [] -> drained (p, pc) = (p, Main.KCheck).
Proof. destruct p. cbn. intros ->. reflexivity. Qed.

(** The steps of a worker inside [process], to the end of the pass, are
    the loop of [process]. *)
Lemma worker_drain_run (j : nat) :
  forall q p s,
    Main.workers s !! j = Some (p, Main.KDrain) -> Processor.queue p = q ->
    Main.run (replicate (S (length q)) (Main.Worker j)) s
    = Some (Main.set_container
              (Processor.process_loop (Main.worker_tid j) (Processor.target p) q
                 (Main.container s)).2
              (Main.set_worker j (drained (p, Main.KDrain)) s)).
Proof.
  induction q as [|e q IH]; intros p s Hj Hq.
  - cbn [length replicate Main.run Main.step]. unfold Main.worker_step.
    rewrite Hj, Hq. cbn [Processor.process_loop snd].
    change (Main.container s) with (Main.container (Main.set_worker j (drained (p, Main.KDrain)) s)).
    now rewrite set_container_id, (drained_empty p) by assumption.
  - change (replicate (S (length (e :: q))) (Main.Worker j))
      with (Main.Worker j :: replicate (S (length q)) (Main.Worker j)).
    cbn [Main.run Main.step]. unfold Main.worker_step at 1. rewrite Hj, Hq.
    rewrite (IH {| Processor.target := Processor.target p; Processor.queue := q;
                   Processor.should_continue := Processor.should_continue p |});
      [| |reflexivity].
    + cbn [Processor.target Processor.process_loop Main.container Main.set_container].
      unfold drained at 1. cbn [fst Processor.target Processor.should_continue].
      fold (drained (p, Main.KDrain)).
      now rewrite set_container_set_worker.
    + cbn. apply list_lookup_insert_eq. eapply lookup_lt_Some, Hj.
Qed.

(** One pass of a worker, from the loop condition of [run] back to it, is
    [process]. *)
Lemma worker_pass_run (j : nat) (p : Processor.t) (s : Main.t) :
  Main.workers s !! j = Some (p, Main.KCheck) ->
  Processor.should_continue p = true ->
  Main.run (replicate (2 + length (Processor.queue p)) (Main.Worker j)) s
  = Some (Main.set_container (Processor.process (Main.worker_tid j) p (Main.container s)).2
            (Main.set_worker j ((Processor.process (Main.worker_tid j) p (Main.container s)).1,
                                Main.KCheck) s)).
Proof.
  intros Hj Hflag.
  change (replicate (2 + length (Processor.queue p)) (Main.Worker j))
    with (Main.Worker j :: replicate (S (length (Processor.queue p))) (Main.Worker j)).
  cbn [Main.run Main.step]. unfold Main.worker_step at 1. rewrite Hj, Hflag.
  rewrite (worker_drain_run j (Processor.queue p) p); [| |reflexivity].
  - rewrite !process_spec, process_loop_spec. cbn [fst snd Main.container].
    unfold drained. cbn [fst].
    change (Main.container (Main.set_worker j (p, Main.KDrain) s)) with (Main.container s).
    generalize (pushes (record_of (Main.worker_tid j) (Processor.target p) <$>
                          List.filter (matching (Processor.target p)) (Processor.queue p))
                  (Main.container s)).
    intros c. unfold Main.set_container, Main.set_worker, Main.set_workers. cbn.
    now rewrite list_insert_insert_eq.
  - cbn. apply list_lookup_insert_eq. eapply lookup_lt_Some, Hj.
Qed.

(** One pass of every worker in turn, each with [m] entries queued. *)
Lemma drain_each_run (m : nat) :
  forall l2 l1 s c,
    Forall (fun w => w.2 = Main.KCheck /\ Processor.should_continue w.1 = true
                     /\ length (Processor.queue w.1) = m) l2 ->
    exists c',
      SearchResultContainer.should_continue c' = SearchResultContainer.should_continue c
      /\ Main.run (mjoin ((fun j => replicate (2 + m) (Main.Worker j))
                            <$> seq (length l1) (length l2)))
           (Main.set_container c (Main.set_workers (l1 ++ l2) s))
         = Some (Main.set_container c' (Main.set_workers (l1 ++ (drained <$> l2)) s)).
Proof.
  induction l2 as [|[p pc] l2 IH]; intros l1 s c Hall.
  - exists c. split; reflexivity.
  - inversion Hall as [|? ? (Hpc & Hflag & Hlen) Hall']; subst. cbn [fst snd] in *.
    subst pc.
    destruct (IH (l1 ++ [drained (p, Main.KCheck)]) s
                (Processor.process (Main.worker_tid (length l1)) p c).2 Hall')
      as (c' & Hc' & Hrun).
    exists c'. split; [now rewrite Hc', process_should_continue |].
    rewrite length_app, Nat.add_1_r, <- !app_assoc in Hrun. cbn [app] in Hrun.
    cbn [length seq fmap list_fmap mjoin list_join]. rewrite run_app.
    rewrite (worker_pass_run (length l1) p)
      by first [assumption | cbn; apply list_lookup_middle; reflexivity].
    cbn [mbind option_bind]. rewrite <- Hrun. f_equal.
    rewrite !process_spec. cbn [fst snd Main.container Main.set_container].
    unfold Main.set_container, Main.set_worker, Main.set_workers. cbn.
    rewrite insert_app_r_alt, Nat.sub_diag by lia. reflexivity.
Qed.

(** The joins of the processor threads, from the thread of index
    [length l1] on, when all of them have ended. *)
Lemma join_each_run :
  forall l2 l1 s,
    Forall (fun w => w.2 = Main.KDone) l2 ->
    Main.run (replicate (S (length l2)) Main.Coordinator)
      (Main.set_coord (Main.CJoinProc (length l1)) (Main.set_workers (l1 ++ l2) s))
    = Some (Main.set_coord Main.CJoinDump (Main.set_workers (l1 ++ l2) s)).
Proof.
  induction l2 as [|[p pc] l2 IH]; intros l1 s Hall.
  - cbn [length replicate Main.run Main.step]. unfold Main.coord_step.
    cbn [Main.coord Main.set_coord Main.workers Main.set_workers].
    rewrite lookup_ge_None_2 by (rewrite app_nil_r; lia). reflexivity.
  - inversion Hall as [|? ? Hpc Hall']; subst. cbn [snd] in Hpc. subst pc.
    specialize (IH (l1 ++ [(p, Main.KDone)]) s Hall').
    rewrite length_app, Nat.add_1_r, <- !app_assoc in IH. cbn [app] in IH.
    change (replicate (S (length ((p, Main.KDone) :: l2))) Main.Coordinator)
      with (Main.Coordinator :: replicate (S (length l2)) Main.Coordinator).
    cbn [Main.run Main.step]. unfold Main.coord_step at 1.
    cbn [Main.coord Main.set_coord Main.workers Main.set_workers].
    rewrite list_lookup_middle by reflexivity. exact IH.
Qed.

Lemma join_all_from (s : Main.t) (n : nat) :
  Main.coord s = Main.CJoinProc 0 ->
  length (Main.workers s) = n ->
  Forall (fun w => w.2 = Main.KDone) (Main.workers s) ->
  Main.run (replicate (S n) Main.Coordinator) s
  = Some (Main.set_coord Main.CJoinDump s).
Proof.
  intros Hpc <- Hall.
  pose proof (join_each_run (Main.workers s) [] s Hall) as H.
  cbn [length app] in H. now rewrite set_workers_id, <- Hpc, set_coord_id in H.
Qed.

Lemma worker_start_step (s : Main.t) (j : nat) (w : Processor.t * Main.worker_pc) :
  Main.workers s !! j = Some w -> w.2 = Main.KCreated ->
  Main.worker_step j s = Some (Main.set_worker j (started w) s).
Proof.
  intros Hj Hpc. unfold Main.worker_step. rewrite Hj.
  destruct w as [p pc]. cbn in Hpc. now subst pc.
Qed.

Lemma worker_end_step (s : Main.t) (j : nat) (w : Processor.t * Main.worker_pc) :
  Main.workers s !! j = Some w ->
  w.2 = Main.KCheck /\ Processor.should_continue w.1 = false ->
  Main.worker_step j s = Some (Main.set_worker j (ended w) s).
Proof.
  intros Hj [Hpc Hflag]. unfold Main.worker_step. rewrite Hj.
  destruct w as [p pc]. cbn in Hpc, Hflag. subst pc. now rewrite Hflag.
Qed.

(** ** A run to completion *)

Lemma forallb_started (ws : list (Processor.t * Main.worker_pc)) :
  forallb (fun w => Processor.should_continue w.1) (started <$> ws) = true.
Proof. induction ws as [|w ws IH]; [reflexivity | exact IH]. Qed.

Lemma start_run (i : Main.input) :
  Main.run (start_schedule (length (Main.substrings i))) (Main.init i)
  = Some (running i true (Main.WNext (PathFinder.entries (Main.listing i)))
            (started <$> created i)
            (Main.set_container_flag true SearchResultContainer.init)
            (Main.DCheck 0) Main.UCheck EmptyString Main.CWaitSearch).
Proof.
  unfold start_schedule.
  rewrite run_app. cbn [Main.run Main.step]. unfold Main.dumper_step at 1.
  cbn [Main.dumper Main.init mbind option_bind].
  rewrite run_app.
  rewrite (run_all_workers (fun w => w.2 = Main.KCreated) started _
             (length (Main.substrings i)) worker_start_step)
    by first [apply length_fmap
             | cbn; apply Forall_fmap, Forall_forall; intros; reflexivity].
  cbn -[started]. unfold Main.coord_step, Main.ready. cbn -[started].
  rewrite forallb_started. reflexivity.
Qed.

Lemma walk_run (i : Main.input) (ws : list (Processor.t * Main.worker_pc))
    (c : SearchResultContainer.t) (d : Main.dumper_pc) (u : Main.ui_pc) (out : string)
    (pc : Main.coord_pc) (es : list directory_entry) (n : nat) :
  length ws = n ->
  Forall (fun w => w.2 <> Main.KDrain) ws ->
  Main.run (replicate (walk_steps n es) Main.Walker)
    (running i true (Main.WNext es) ws c d u out pc)
  = Some (running i true
            (Main.WDone (if PathFinder.fails (Main.listing i)
                         then PathFinder.Threw else PathFinder.Returned 0))
            (fed (List.filter is_file es) <$> ws) c d u out pc).
Proof.
  intros <- Hfree.
  exact (walker_walk_run es ws (running i true (Main.WNext es) ws c d u out pc)
           Hfree eq_refl).
Qed.

Lemma drain_run (i : Main.input) (m n : nat) (w : Main.walker_pc)
    (ws : list (Processor.t * Main.worker_pc))
    (c : SearchResultContainer.t) (d : Main.dumper_pc) (u : Main.ui_pc) (out : string)
    (pc : Main.coord_pc) :
  length ws = n ->
  Forall (fun w => w.2 = Main.KCheck /\ Processor.should_continue w.1 = true
                   /\ length (Processor.queue w.1) = m) ws ->
  exists c',
    SearchResultContainer.should_continue c' = SearchResultContainer.should_continue c
    /\ Main.run (drain_schedule n m) (running i true w ws c d u out pc)
       = Some (running i true w (drained <$> ws) c' d u out pc).
Proof.
  intros <- Hall.
  destruct (drain_each_run m ws [] (running i true w ws c d u out pc) c Hall)
    as (c' & Hc' & Hrun).
  exists c'. split; [exact Hc' | exact Hrun].
Qed.

Lemma total_queue_size_of_drained (s : Main.t) (ws : list (Processor.t * Main.worker_pc)) :
  Main.workers s = drained <$> ws -> Main.total_queue_size s = 0%nat.
Proof.
  unfold Main.total_queue_size. intros ->.
  induction ws as [|w ws IH]; [reflexivity | exact IH].
Qed.

(** The main thread sees the walk over and the queues empty, flushes and
    stops every loop. *)
Lemma shutdown_run (i : Main.input) (o : PathFinder.outcome)
    (ws : list (Processor.t * Main.worker_pc))
    (c : SearchResultContainer.t) (d : Main.dumper_pc) (u : Main.ui_pc) (out : string) :
  Main.run [Main.Coordinator; Main.Coordinator; Main.Coordinator]
    (running i true (Main.WDone o) (drained <$> ws) c d u out Main.CWaitQueues)
  = Some (running i false (Main.WDone o) (Main.set_proc_flag false <$> (drained <$> ws))
            {| SearchResultContainer.store := ∅;
               SearchResultContainer.should_continue := false |}
            d u
            ((out +:+ (SearchResultContainer.dump Main.main_tid c).2)
               +:+ Logger.info Main.main_tid "ending")
            Main.CJoinSearch).
Proof.
  cbn [Main.run Main.step]. unfold Main.coord_step at 1.
  cbn [Main.coord running Main.should_continue andb].
  rewrite (total_queue_size_of_drained _ ws) by reflexivity.
  reflexivity.
Qed.

Lemma workers_end_run (i : Main.input) (n : nat) (w : Main.walker_pc)
    (ws : list (Processor.t * Main.worker_pc))
    (c : SearchResultContainer.t) (d : Main.dumper_pc) (u : Main.ui_pc) (out : string)
    (pc : Main.coord_pc) :
  length ws = n ->
  Forall (fun w => w.2 = Main.KCheck /\ Processor.should_continue w.1 = false) ws ->
  Main.run (Main.Worker <$> seq 0 n) (running i false w ws c d u out pc)
  = Some (running i false w (ended <$> ws) c d u out pc).
Proof.
  intros Hn Hall.
  exact (run_all_workers _ ended (running i false w ws c d u out pc) n
           worker_end_step Hn Hall).
Qed.

(** The main thread joins every thread that has ended, detaches the
    reader and returns. *)
Lemma joins_run (i : Main.input) (n : nat) (o : PathFinder.outcome)
    (ws : list (Processor.t * Main.worker_pc))
    (c : SearchResultContainer.t) (u : Main.ui_pc) (out : string) :
  length ws = n ->
  Forall (fun w => w.2 = Main.KDone) ws ->
  Main.run (replicate (n + 4) Main.Coordinator)
    (running i false (Main.WDone o) ws c Main.DDone u out Main.CJoinSearch)
  = Some (running i false (Main.WDone o) ws c Main.DDone u out
            (Main.CReturned Main.EXIT_SUCCESS)).
Proof.
  intros Hn Hall.
  replace (n + 4)%nat with (1 + (S n + 2))%nat by lia.
  rewrite !replicate_add, !run_app.
  change (replicate 1 Main.Coordinator) with [Main.Coordinator].
  cbn [Main.run Main.step]. unfold Main.coord_step at 1.
  cbn [Main.coord running Main.walker_done Main.walker mbind option_bind].
  rewrite run_app, (join_all_from _ n) by first [reflexivity | assumption].
  reflexivity.
Qed.

Lemma created_started (i : Main.input) :
  Forall (fun w => w.2 <> Main.KDrain) (started <$> created i).
Proof. apply Forall_fmap, Forall_forall. intros w _. discriminate. Qed.

Lemma fed_ready (i : Main.input) (files : list directory_entry) :
  Forall (fun w => w.2 = Main.KCheck /\ Processor.should_continue w.1 = true
                   /\ length (Processor.queue w.1) = length files)
         (fed files <$> (started <$> created i)).
Proof.
  unfold created. rewrite !Forall_fmap. apply Forall_forall. intros sub _.
  repeat split.
Qed.

Lemma stopped_ready (ws : list (Processor.t * Main.worker_pc)) :
  Forall (fun w => w.2 = Main.KCheck /\ Processor.should_continue w.1 = false)
         (Main.set_proc_flag false <$> (drained <$> ws)).
Proof. rewrite !Forall_fmap. apply Forall_forall. intros w _. split; reflexivity. Qed.

Lemma ended_done (ws : list (Processor.t * Main.worker_pc)) :
  Forall (fun w => w.2 = Main.KDone) (ended <$> ws).
Proof. rewrite Forall_fmap. apply Forall_forall. intros w _. reflexivity. Qed.

Lemma length_created (i : Main.input) :
  length (created i) = length (Main.substrings i).
Proof. apply length_fmap. Qed.

(** For every input [do_main] can return: the schedule that lets every
    thread start, the walker and the workers finish, and the main thread
    shut down, ends with [EXIT_SUCCESS] returned, the walker's outcome the
    one of the whole range, and the command reader still at its loop. *)
Theorem do_main_can_return (i : Main.input) :
  exists s,
    Main.run (completing_schedule i) (Main.init i) = Some s
    /\ Main.returned s = Some Main.EXIT_SUCCESS
    /\ Main.walker s
       = Main.WDone (if PathFinder.fails (Main.listing i)
                     then PathFinder.Threw else PathFinder.Returned 0)
    /\ Main.ui s = Main.UCheck
    /\ Main.ui_done s = false.
Proof.
  unfold completing_schedule. cbv zeta.
  rewrite run_app, start_run. cbn [mbind option_bind].
  set (n := length (Main.substrings i)).
  set (es := PathFinder.entries (Main.listing i)).
  set (files := List.filter is_file es).
  assert (Hn : length (started <$> created i) = n)
    by (rewrite !length_fmap; apply length_created).
  rewrite run_app, (walk_run i _ _ _ _ _ _ es n Hn (created_started i)).
  cbn [mbind option_bind]. fold files.
  rewrite run_app. cbn [Main.run Main.step]. unfold Main.coord_step at 1.
  cbn [Main.coord running Main.should_continue Main.walker_done Main.walker andb negb
       mbind option_bind].
  change (Main.set_coord Main.CWaitQueues (running i true ?w ?ws ?c ?d ?u ?out _))
    with (running i true w ws c d u out Main.CWaitQueues).
  destruct (drain_run i (length files) n
              (Main.WDone (if PathFinder.fails (Main.listing i)
                           then PathFinder.Threw else PathFinder.Returned 0))
              (fed files <$> (started <$> created i))
              (Main.set_container_flag true SearchResultContainer.init)
              (Main.DCheck 0) Main.UCheck EmptyString Main.CWaitQueues)
    as (c' & Hc' & Hdrain);
    [rewrite !length_fmap; apply length_created | apply fed_ready |].
  rewrite run_app, Hdrain. cbn [mbind option_bind].
  rewrite run_app, shutdown_run. cbn [mbind option_bind].
  rewrite run_app, (workers_end_run i n)
    by first [rewrite !length_fmap; apply length_created | apply stopped_ready].
  cbn [mbind option_bind].
  rewrite run_app. cbn [Main.run Main.step]. unfold Main.dumper_step at 1.
  cbn [Main.dumper running Main.container SearchResultContainer.should_continue
       mbind option_bind].
  change (Main.set_dumper Main.DDone (running i false ?w ?ws ?c _ ?u ?out ?pc))
    with (running i false w ws c Main.DDone u out pc).
  rewrite (joins_run i n)
    by first [rewrite !length_fmap; apply length_created | apply ended_done].
  eexists. split; [reflexivity |]. repeat split.
Qed.

(** ** Examples *)

Example filename_nested : filename "notes/draft.txt" = "draft.txt".
Proof. reflexivity. Qed.

Example filename_trailing_separator : filename "notes/" = "".
Proof. reflexivity. Qed.

Example find_is_case_sensitive :
  Str.find "Report.txt" "report" = None /\ Str.find "a_report.txt" "report" = Some 2%nat.
Proof. split; reflexivity. Qed.

Example process_report_draft :
  let q := [DirectoryEntry "root/report.txt" false; DirectoryEntry "root/book.pdf" false;
            DirectoryEntry "root/notes/draft.txt" false;
            DirectoryEntry "root/report/x" false] in
  SearchResultContainer.store
    (Processor.process 7%N (Processor.Build "report" q true) SearchResultContainer.init).2
  = {[ "root/report.txt" := [("report", 7%N)] ]}.
Proof. vm_compute. reflexivity. Qed.

Example fan_out_order :
  let a := DirectoryEntry "r/a.txt" false in
  let d := DirectoryEntry "r/sub" true in
  let b := DirectoryEntry "r/sub/b.txt" false in
  (PathFinder.list_paths (fun _ => true) (PathFinder.Listing [a; d; b] false)
     [Processor.make "a"; Processor.make "b"; Processor.make "txt"]).2
  = [(0, a); (1, a); (2, a); (0, b); (1, b); (2, b)]%nat.
Proof. reflexivity. Qed.

(** The run of the specification's scenario: [report.txt], [book.pdf]-like
    non-matches aside, each file is reported once under the worker of its
    substring by the final flush. *)
Example natural_completion_output :
  Main.cout <$> Main.run natural_completion (Main.init quiet_input)
  = Some (Logger.info 0%N "dump start"
          +:+ quoted "root/notes/draft.txt" +:+ nl
          +:+ SearchResultContainer.value_line ("draft", 4%N)
          +:+ quoted "root/report.txt" +:+ nl
          +:+ SearchResultContainer.value_line ("report", 3%N)
          +:+ Logger.info 0%N "ending").
Proof. vm_compute. reflexivity. Qed.

(** * The claims *)

(** ** C1: what the shutdown waits for *)

(** C1, as the specification states it, fails: in this run nothing is
    typed, the main thread returns, and the command reader is still inside
    [std::getline], where it can make no step. *)
Lemma C1_counterexample :
  exists s,
    Main.run natural_completion (Main.init quiet_input) = Some s
    /\ Main.returned s = Some Main.EXIT_SUCCESS
    /\ Main.ui s = Main.URead
    /\ Main.ui_done s = false
    /\ Main.step Main.UI s = None.
Proof.
  eexists. split; [vm_compute; reflexivity |].
  repeat split; reflexivity.
Qed.

(** C1, amended. When [do_main] returns, the search thread, every
    processor thread (one per substring) and the dump thread have ended:
    the main thread passes each [join] only once the thread joined has
    ended. The command reader is detached, not joined: for every input
    there is a run in which [do_main] returns and the reader has not
    ended. *)
Theorem C1_do_main_returns_after_the_joined_threads_ended :
  forall (i : Main.input),
    (forall (schedule : list Main.actor) (s : Main.t) (status : Z),
       Main.run schedule (Main.init i) = Some s ->
       Main.coord s = Main.CReturned status ->
       Main.walker_done s = true
       /\ length (Main.workers s) = length (Main.substrings i)
       /\ (forall j w, Main.workers s !! j = Some w -> Main.worker_done w = true)
       /\ Main.dumper_done s = true)
    /\ exists s,
         Main.run (completing_schedule i) (Main.init i) = Some s
         /\ Main.returned s = Some Main.EXIT_SUCCESS
         /\ Main.ui_done s = false.
Proof.
  intros i. split.
  - intros schedule s status Hrun Hret.
    destruct (run_joined_have_ended _ _ _ Hrun (init_joined_have_ended i))
      as (Hsearch & Hprocs & Hdump).
    rewrite Hret in Hsearch, Hprocs, Hdump. cbn in Hsearch, Hprocs, Hdump.
    split; [now apply Hsearch | split; [|split; [|now apply Hdump]]].
    + rewrite (run_workers_length _ _ _ Hrun). cbn. apply length_fmap.
    + intros j w Hw. specialize (Hprocs j (lookup_lt_Some _ _ _ Hw)).
      unfold worker_pc_at in Hprocs. rewrite Hw in Hprocs. cbn in Hprocs.
      unfold Main.worker_done. injection Hprocs as ->. reflexivity.
  - destruct (do_main_can_return i) as (s & Hrun & Hret & _ & _ & Hui).
    now exists s.
Qed.

Lemma C1_witness :
  exists s,
    Main.run natural_completion (Main.init quiet_input) = Some s
    /\ Main.walker_done s = true
    /\ length (Main.workers s) = 2%nat
    /\ (forall j w, Main.workers s !! j = Some w -> Main.worker_done w = true)
    /\ Main.dumper_done s = true.
Proof.
  eexists. split; [vm_compute; reflexivity |].
  apply (proj1 (C1_do_main_returns_after_the_joined_threads_ended quiet_input)
           natural_completion _ Main.EXIT_SUCCESS);
    [vm_compute; reflexivity | reflexivity].
Defined.

(** ** C2: the store's mutex during a flush *)

(** C2, as the specification states it, fails: when the dumping thread
    reaches the emission, it still holds the store's mutex, and a push by
    another thread cannot start. *)
Lemma C2_counterexample :
  let r := mkSearchResult (DirectoryEntry "root/a.txt" false) "a" 3%N in
  let s0 := {| StoreLock.container := pushes [r] SearchResultContainer.init;
               StoreLock.owner := None; StoreLock.cout := EmptyString |} in
  exists d s,
    StoreLock.exec_n 4 (StoreLock.call 1%N StoreLock.dump_body) s0 = Some (d, s)
    /\ StoreLock.at_emit d = true
    /\ StoreLock.owner s = Some 1%N
    /\ StoreLock.exec (StoreLock.call 4%N (StoreLock.push_body r)) s = None.
Proof.
  intros r s0. eexists _, _. split; [reflexivity |].
  split; [reflexivity | split; reflexivity].
Qed.

(** C2, amended. A flush holds the store's mutex from its first line to
    its last: after each of its first five operations (the acquisition,
    the logger's line, the formatting of the snapshot, the clearing of the
    store and the emission) the mutex is owned by the dumping thread and a
    push by any thread cannot start; the emission is the fifth, made with
    the store already empty; the mutex is free only after the sixth, when
    the container and the output are those of [dump]. *)
Theorem C2_flush_holds_the_lock_through_the_emission :
  forall (c : SearchResultContainer.t) (t : thread_id) (out : string),
    let s0 := {| StoreLock.container := c; StoreLock.owner := None;
                 StoreLock.cout := out |} in
    (forall n, (1 <= n <= 5)%nat ->
       exists d s,
         StoreLock.exec_n n (StoreLock.call t StoreLock.dump_body) s0 = Some (d, s)
         /\ StoreLock.owner s = Some t
         /\ forall t' r, StoreLock.exec (StoreLock.call t' (StoreLock.push_body r)) s = None)
    /\ (exists d s,
          StoreLock.exec_n 4 (StoreLock.call t StoreLock.dump_body) s0 = Some (d, s)
          /\ StoreLock.at_emit d = true
          /\ StoreLock.owner s = Some t
          /\ SearchResultContainer.store (StoreLock.container s) = ∅
          /\ StoreLock.cout s = out +:+ Logger.info t "dump start")
    /\ (exists d s,
          StoreLock.exec_n 6 (StoreLock.call t StoreLock.dump_body) s0 = Some (d, s)
          /\ StoreLock.code d = []
          /\ StoreLock.owner s = None
          /\ StoreLock.container s = (SearchResultContainer.dump t c).1
          /\ StoreLock.cout s = out +:+ (SearchResultContainer.dump t c).2).
Proof.
  intros c t out s0. subst s0. split; [|split].
  - intros n Hn.
    assert (Hcases : (n = 1 \/ n = 2 \/ n = 3 \/ n = 4 \/ n = 5)%nat) by lia.
    destruct Hcases as [->|[->|[->|[->| ->]]]];
      (eexists _, _; split; [reflexivity | split; [reflexivity | intros; reflexivity]]).
  - eexists _, _. split; [reflexivity |]. repeat split; reflexivity.
  - eexists _, _. split; [reflexivity |]. repeat split; try reflexivity.
    cbn. now rewrite append_assoc.
Qed.

Lemma C2_witness :
  exists d s,
    StoreLock.exec_n 5 (StoreLock.call 1%N StoreLock.dump_body)
      {| StoreLock.container := SearchResultContainer.init; StoreLock.owner := None;
         StoreLock.cout := EmptyString |} = Some (d, s)
    /\ StoreLock.owner s = Some 1%N
    /\ forall t' r, StoreLock.exec (StoreLock.call t' (StoreLock.push_body r)) s = None.
Proof.
  exact (proj1 (C2_flush_holds_the_lock_through_the_emission
                  SearchResultContainer.init 1%N EmptyString) 5%nat ltac:(lia)).
Defined.

(** ** C3: the exit status *)

(** C3, as the specification states it, fails: the iterator throws and the
    walk is aborted, or the walker returns 1 after a stop, and [do_main]
    returns [EXIT_SUCCESS] all the same. *)
Lemma C3_counterexample :
  (exists s,
     Main.run aborted_walk (Main.init failing_input) = Some s
     /\ Main.walker s = Main.WDone PathFinder.Threw
     /\ Main.returned s = Some Main.EXIT_SUCCESS)
  /\ (exists s,
        Main.run stopped_walk (Main.init stopped_input) = Some s
        /\ Main.walker s = Main.WDone (PathFinder.Returned 1)
        /\ Main.returned s = Some Main.EXIT_SUCCESS)
  /\ Main.EXIT_SUCCESS <> Main.EXIT_FAILURE.
Proof.
  split; [|split].
  - eexists. split; [vm_compute; reflexivity |]. split; reflexivity.
  - eexists. split; [vm_compute; reflexivity |]. split; reflexivity.
  - discriminate.
Qed.

(** C3, amended. Whenever [do_main] returns, it returns [EXIT_SUCCESS]: the
    outcome of the walker (completed, stopped, or aborted by an exception
    of the iterator) is never read. For every input there is a run in
    which it does return, and when the iteration of the root fails that
    run ends with the walk aborted and [EXIT_SUCCESS] returned. *)
Theorem C3_do_main_returns_success_whatever_the_walk :
  forall (i : Main.input),
    (forall (schedule : list Main.actor) (s : Main.t) (status : Z),
       Main.run schedule (Main.init i) = Some s ->
       Main.coord s = Main.CReturned status ->
       status = Main.EXIT_SUCCESS)
    /\ exists s,
         Main.run (completing_schedule i) (Main.init i) = Some s
         /\ Main.returned s = Some Main.EXIT_SUCCESS
         /\ Main.walker s
            = Main.WDone (if PathFinder.fails (Main.listing i)
                          then PathFinder.Threw else PathFinder.Returned 0).
Proof.
  intros i. split.
  - intros schedule s status Hrun Hret.
    refine (run_status_is_success _ _ _ Hrun _ status Hret).
    intros st Hst. discriminate Hst.
  - destruct (do_main_can_return i) as (s & Hrun & Hret & Hwalk & _).
    now exists s.
Qed.

Lemma C3_witness :
  exists s status,
    Main.run aborted_walk (Main.init failing_input) = Some s
    /\ Main.walker s = Main.WDone PathFinder.Threw
    /\ Main.coord s = Main.CReturned status
    /\ status = Main.EXIT_SUCCESS.
Proof.
  eexists _, _. split; [vm_compute; reflexivity |].
  split; [reflexivity |]. split; [reflexivity |].
  eapply (proj1 (C3_do_main_returns_success_whatever_the_walk failing_input)
            aborted_walk);
    [vm_compute; reflexivity | reflexivity].
Defined.

(** ** C4: what a worker records *)

(** C4. A filter worker of target [S], run by thread [tid], pushes the
    record (entry, [S], [tid]) to the result sink for exactly the dequeued
    entries whose filename contains [S] as a contiguous run of characters,
    compared character by character (so case matters); and the walker
    hands no directory to a worker's queue, whatever its name: in no state
    that [do_main] can reach does a queue hold a directory. *)
Theorem C4_record_iff_filename_contains :
  forall (tid : thread_id) (p : Processor.t) (c : SearchResultContainer.t),
    let S := Processor.target p in
    (forall e, Processor.match_record tid S e
               = if matching S e then Some (mkSearchResult e S tid) else None)
    /\ (forall e, matching S e = true <-> Str.contains (filename (path e)) S)
    /\ (Processor.process tid p c).2
       = pushes (record_of tid S <$> List.filter (matching S) (Processor.queue p)) c
    /\ Str.found "Report.txt" "report" = false
    /\ (forall reads l procs,
          (forall j e, (j, e) ∈ (PathFinder.list_paths reads l procs).2 ->
                       is_directory e = false)
          /\ exists added,
               Forall (fun e => is_directory e = false) added
               /\ (PathFinder.list_paths reads l procs).1.2 = enqueue added <$> procs)
    /\ forall i s, Main.reachable i s -> queues_hold_files s.
Proof.
  intros tid p c S. split; [|split; [|split; [|split; [|split]]]].
  - intros e. unfold Processor.match_record, matching.
    now destruct (Str.found (filename (path e)) S).
  - intros e. apply matching_iff_contains.
  - now rewrite process_spec.
  - reflexivity.
  - intros reads l procs. rewrite list_paths_spec. split.
    + intros j e H. now apply fan_out_calls_files in H.
    + eexists. split; [apply filter_is_file_forall | reflexivity].
  - apply reachable_queues_hold_files.
Qed.

(** ** C5: a flush empties the store *)

(** C5. A flush leaves the store empty, so the snapshot of a second flush
    that follows with no push in between is empty: the second call writes
    the logger's line and nothing else, and leaves the container as it
    was. In the periodic loop a flush of an empty store changes nothing in
    the container either, and the timer restarts after every flush,
    whether or not the store held anything. *)
Theorem C5_flush_empties_the_store :
  forall (tid tid' : thread_id) (c : SearchResultContainer.t),
    SearchResultContainer.store (SearchResultContainer.dump tid c).1 = ∅
    /\ SearchResultContainer.snapshot
         (SearchResultContainer.store (SearchResultContainer.dump tid c).1) = EmptyString
    /\ SearchResultContainer.dump tid' (SearchResultContainer.dump tid c).1
       = ((SearchResultContainer.dump tid c).1, Logger.info tid' "dump start")
    /\ (forall ms finish now st,
          SearchResultContainer.elapsed_exceeds (SearchResultContainer.start st) finish ms
          = true ->
          SearchResultContainer.start
            (SearchResultContainer.periodic_iteration tid ms finish now st) = now)
    /\ (forall ms finish now st,
          SearchResultContainer.elapsed_exceeds (SearchResultContainer.start st) finish ms
          = true ->
          SearchResultContainer.store (SearchResultContainer.container st) = ∅ ->
          SearchResultContainer.periodic_iteration tid ms finish now st
          = {| SearchResultContainer.start := now;
               SearchResultContainer.container := SearchResultContainer.container st;
               SearchResultContainer.cout :=
                 SearchResultContainer.cout st +:+ Logger.info tid "dump start" |}).
Proof.
  intros tid tid' c. split; [|split; [|split; [|split]]].
  - apply dump_store.
  - rewrite dump_store. apply snapshot_empty.
  - apply dump_empty, dump_store.
  - intros ms finish now st Hover. now rewrite periodic_iteration_timer, Hover.
  - intros ms finish now st Hover Hempty.
    unfold SearchResultContainer.periodic_iteration.
    now rewrite Hover, (dump_empty tid _ Hempty).
Qed.

Lemma C5_witness :
  let st := {| SearchResultContainer.start := 0;
               SearchResultContainer.container := SearchResultContainer.init;
               SearchResultContainer.cout := EmptyString |} in
  SearchResultContainer.periodic_iteration 1%N 9500 9500000001 9500000002 st
  = {| SearchResultContainer.start := 9500000002;
       SearchResultContainer.container := SearchResultContainer.init;
       SearchResultContainer.cout :=
         EmptyString +:+ Logger.info 1%N "dump start" |}.
Proof.
  intros st.
  exact (proj2 (proj2 (proj2 (proj2
    (C5_flush_empties_the_store 1%N 1%N SearchResultContainer.init))))
    9500%Z 9500000001%Z 9500000002%Z st eq_refl eq_refl).
Defined.

(** ** C6: one key per path *)

(** C6. The store's mutex serialises the pushes of the workers: a push
    holds it from its first line to its last and ends with the container
    of [SearchResultContainer.push]. Whatever the order of the pushes, the
    store holds one key per path pushed since the last flush, and under it
    the values pushed for that path, each once, in arrival order. When all
    the pushes since the last flush are for one path, the next flush
    writes that path once, followed by one line per push. *)
Theorem C6_one_key_per_path_values_in_arrival_order :
  forall (rs : list SearchResult) (c : SearchResultContainer.t),
    (forall k, SearchResultContainer.store (pushes rs c) !! k
               = match values_for k rs with
                 | [] => SearchResultContainer.store c !! k
                 | vs => Some (default [] (SearchResultContainer.store c !! k) ++ vs)
                 end)
    /\ NoDup (map_to_list (SearchResultContainer.store (pushes rs c))).*1
    /\ (forall (k : string) (tid : thread_id),
          SearchResultContainer.store c = ∅ ->
          rs <> [] ->
          (forall r, r ∈ rs -> path (entry r) = k) ->
          SearchResultContainer.store (pushes rs c) = {[ k := value_of <$> rs ]}
          /\ (SearchResultContainer.dump tid (pushes rs c)).2
             = Logger.info tid "dump start" +:+ quoted k +:+ nl
                 +:+ join_all (SearchResultContainer.value_line <$> (value_of <$> rs)))
    /\ forall (t : thread_id) (out : string) (r : SearchResult),
         StoreLock.exec_n 3 (StoreLock.call t (StoreLock.push_body r))
           {| StoreLock.container := c; StoreLock.owner := None; StoreLock.cout := out |}
         = Some (StoreLock.call t [],
                 {| StoreLock.container := SearchResultContainer.push r c;
                    StoreLock.owner := None; StoreLock.cout := out |}).
Proof.
  intros rs c. split; [|split; [|split]].
  - intros k. apply pushes_lookup.
  - apply NoDup_fst_map_to_list.
  - intros k tid Hc Hrs Hk. split.
    + now apply pushes_same_path.
    + unfold SearchResultContainer.dump. cbn [snd].
      now rewrite (pushes_same_path k), snapshot_singleton by assumption.
  - intros t out r. apply (push_holds_the_lock c t out r).
Qed.

Lemma C6_witness :
  let e := DirectoryEntry "root/report_draft.txt" false in
  let rs := [mkSearchResult e "report" 3%N; mkSearchResult e "draft" 4%N;
             mkSearchResult e "report" 3%N] in
  SearchResultContainer.store (pushes rs SearchResultContainer.init)
  = {[ "root/report_draft.txt" := [("report", 3%N); ("draft", 4%N); ("report", 3%N)] ]}.
Proof.
  intros e rs.
  refine (proj1 (proj1 (proj2 (proj2 (C6_one_key_per_path_values_in_arrival_order rs
                   SearchResultContainer.init))) "root/report_draft.txt" 0%N
                   eq_refl _ _)).
  - discriminate.
  - intros r Hr. subst rs. repeat (apply elem_of_cons in Hr as [->|Hr]; [reflexivity |]).
    now apply elem_of_nil in Hr.
Defined.

(** ** C7 and C8: the walker *)

(** C7. For every entry the loop body runs for, the walker calls [push] on
    every registered processor, in the order of the vector, before it
    moves to the next entry, when the entry is not a directory, and makes
    no call when it is one: the calls are, entry by entry, those of
    [fan_out_calls], and every queue grows by the visited non-directories
    in traversal order. With the flag never false every entry is visited. *)
Theorem C7_walker_pushes_each_file_to_every_queue_in_order :
  forall (reads : nat -> bool) (l : PathFinder.listing) (procs : list Processor.t),
    let seen := visited reads (PathFinder.entries l) in
    (PathFinder.list_paths reads l procs).2
    = flat_map (fan_out_calls (length procs)) seen
    /\ (PathFinder.list_paths reads l procs).1.2
       = enqueue (List.filter is_file seen) <$> procs
    /\ (forall e, fan_out_calls (length procs) e
                  = if is_directory e then []
                    else (fun j => (j, e)) <$> seq 0 (length procs))
    /\ (forall j e, (j, e) ∈ (PathFinder.list_paths reads l procs).2 ->
                    is_directory e = false /\ e ∈ seen)
    /\ visited (fun _ => true) (PathFinder.entries l) = PathFinder.entries l.
Proof.
  intros reads l procs seen. subst seen. rewrite list_paths_spec.
  split; [reflexivity | split; [reflexivity | split; [reflexivity | split]]].
  - intros j e H. now apply fan_out_calls_files in H.
  - apply visited_all.
Qed.

(** C8. The walker reads its flag before the loop body of each entry. When
    the check for the entry of index [k] is the first to see it false, the
    walk ends there: it returns 1, only the [k] entries before have been
    fanned out, and 1 is not the 0 returned by a walk that reaches the end
    of the range. *)
Theorem C8_walker_stops_when_flag_is_false :
  forall (reads : nat -> bool) (l : PathFinder.listing) (procs : list Processor.t)
         (k : nat),
    (k < length (PathFinder.entries l))%nat ->
    (forall j, (j < k)%nat -> reads j = true) ->
    reads k = false ->
    PathFinder.list_paths reads l procs
    = (PathFinder.Returned 1,
       enqueue (List.filter is_file (take k (PathFinder.entries l))) <$> procs,
       flat_map (fan_out_calls (length procs)) (take k (PathFinder.entries l)))
    /\ (PathFinder.list_paths (fun _ => true)
          (PathFinder.Listing (PathFinder.entries l) false) procs).1.1
       = PathFinder.Returned 0
    /\ PathFinder.Returned 1 <> PathFinder.Returned 0.
Proof.
  intros reads l procs k Hk Hbefore Hstop. split; [|split].
  - rewrite list_paths_spec, (visited_stop reads _ k) by assumption.
    unfold walk_result. rewrite (visited_stop reads _ k) by assumption.
    rewrite length_take, Nat.min_l by lia.
    now apply Nat.ltb_lt in Hk as ->.
  - rewrite list_paths_spec. cbn [fst PathFinder.entries PathFinder.fails].
    unfold walk_result. now rewrite visited_all, Nat.ltb_irrefl.
  - discriminate.
Qed.

Lemma C8_witness :
  let a := DirectoryEntry "r/a.txt" false in
  let b := DirectoryEntry "r/b.txt" false in
  PathFinder.list_paths (fun j => (j <? 1)%nat) (PathFinder.Listing [a; b] false)
    [Processor.make "a"]
  = (PathFinder.Returned 1, [Processor.Build "a" [a] false], [(0%nat, a)]).
Proof.
  intros a b.
  exact (proj1 (C8_walker_stops_when_flag_is_false
                  (fun j => (j <? 1)%nat) (PathFinder.Listing [a; b] false)
                  [Processor.make "a"] 1
                  ltac:(cbn; lia)
                  ltac:(intros j Hj; now apply Nat.ltb_lt)
                  eq_refl)).
Defined.

(** ** C9 and C10: a pass of a worker *)

(** C9. One pass of [process] runs the loop body once on every entry that
    is in the queue when the pass starts, first in first out, and leaves
    the queue empty; the records reach the store in the order the entries
    were dequeued, so under each path the new values follow the old ones
    in that order. In [do_main] the steps of a worker from the loop
    condition of [run] through a pass and back are [process], and while
    the worker is inside the pass no other thread changes its queue. *)
Theorem C9_drain_pass_is_fifo_and_empties_queue :
  forall (tid : thread_id) (p : Processor.t) (c : SearchResultContainer.t),
    let S := Processor.target p in
    let recorded := record_of tid S <$> List.filter (matching S) (Processor.queue p) in
    (Processor.process tid p c).1
    = {| Processor.target := S; Processor.queue := [];
         Processor.should_continue := Processor.should_continue p |}
    /\ (Processor.process tid p c).2
       = foldl (fun c e => Processor.process_front tid S e c) c (Processor.queue p)
    /\ (Processor.process tid p c).2 = pushes recorded c
    /\ (forall k,
          SearchResultContainer.store (Processor.process tid p c).2 !! k
          = match values_for k recorded with
            | [] => SearchResultContainer.store c !! k
            | vs => Some (default [] (SearchResultContainer.store c !! k) ++ vs)
            end)
    /\ (forall j s,
          Main.workers s !! j = Some (p, Main.KCheck) ->
          Processor.should_continue p = true ->
          Main.run (replicate (2 + length (Processor.queue p)) (Main.Worker j)) s
          = Some (Main.set_container
                    (Processor.process (Main.worker_tid j) p (Main.container s)).2
                    (Main.set_worker j
                       ((Processor.process (Main.worker_tid j) p (Main.container s)).1,
                        Main.KCheck) s)))
    /\ forall a s s' j,
         worker_pc_at s j = Some Main.KDrain ->
         Main.step a s = Some s' -> a <> Main.Worker j ->
         queue_at s' j = queue_at s j.
Proof.
  intros tid p c S recorded. subst S recorded.
  split; [|split; [|split; [|split; [|split]]]].
  - now rewrite process_spec.
  - rewrite <- process_loop_fold. unfold Processor.process.
    now destruct (Processor.process_loop tid (Processor.target p) (Processor.queue p) c).
  - now rewrite process_spec.
  - intros k. rewrite process_spec. apply pushes_lookup.
  - intros j s. apply worker_pass_run.
  - intros a s s' j. apply drain_excludes_push.
Qed.

(** C10. With the empty string as target, [find] returns position 0 in
    every filename, the empty one included, so a record is pushed for
    every dequeued entry. *)
Theorem C10_empty_target_matches_every_entry :
  forall (tid : thread_id) (q : list directory_entry) (b : bool)
         (c : SearchResultContainer.t),
    (forall F, Str.find F EmptyString = Some 0%nat)
    /\ Str.found EmptyString EmptyString = true
    /\ (forall e, Processor.match_record tid EmptyString e
                  = Some (mkSearchResult e EmptyString tid))
    /\ Processor.process tid
         {| Processor.target := EmptyString; Processor.queue := q;
            Processor.should_continue := b |} c
       = ({| Processor.target := EmptyString; Processor.queue := [];
             Processor.should_continue := b |},
          pushes (record_of tid EmptyString <$> q) c).
Proof.
  intros tid q b c. split; [|split; [|split]].
  - intros F. now destruct F.
  - reflexivity.
  - intros e. unfold Processor.match_record. now rewrite found_empty_target.
  - rewrite process_spec. cbn [Processor.target Processor.queue Processor.should_continue].
    now rewrite filter_matching_empty.
Qed.


(** * Further properties *)

(** ** [ArgParser::parse_args] *)

(** X1. [parse_args] returns search settings exactly when there are at
    least three arguments and the second names an existing path; the root
    is then the second argument, the substrings are all the arguments from
    the third on (so at least one), in order, and links are not followed. *)
Theorem X1_parse_args_returns_settings :
  forall (path_exists : string -> bool) (args : list string)
         (settings : ArgParser.SearchSettings),
    (ArgParser.parse_args path_exists args = inl (ArgParser.Search settings)
     <-> (3 <= length args)%nat
         /\ path_exists (ArgParser.arg args 1) = true
         /\ settings = {| ArgParser.root_dir := ArgParser.arg args 1;
                          ArgParser.follow_links := false;
                          ArgParser.substrings := drop 2 args |})
    /\ (ArgParser.parse_args path_exists args = inl (ArgParser.Search settings) ->
        ArgParser.substrings settings <> []
        /\ length (ArgParser.substrings settings) = (length args - 2)%nat
        /\ args = ArgParser.arg args 0 :: ArgParser.root_dir settings
                    :: ArgParser.substrings settings).
Proof.
  intros path_exists args settings.
  assert (Hiff :
    ArgParser.parse_args path_exists args = inl (ArgParser.Search settings)
    <-> (3 <= length args)%nat
        /\ path_exists (ArgParser.arg args 1) = true
        /\ settings = {| ArgParser.root_dir := ArgParser.arg args 1;
                         ArgParser.follow_links := false;
                         ArgParser.substrings := drop 2 args |}).
  { unfold ArgParser.parse_args.
    destruct args as [|exe [|a [|b rest]]]; cbn.
    - split; [discriminate | intros [H _]; lia].
    - split; [discriminate | intros [H _]; lia].
    - split; [|intros [H _]; lia].
      destruct (String.eqb a "--help"); [discriminate |].
      destruct (String.eqb a "--test"); discriminate.
    - destruct (path_exists a); cbn.
      + split; [intros [= <-]; repeat split; lia | intros (_ & _ & ->); reflexivity].
      + split; [discriminate | intros (_ & H & _); discriminate]. }
  split; [exact Hiff |].
  intros H. apply Hiff in H as (Hlen & _ & ->). cbn.
  destruct args as [|exe [|a [|b rest]]]; cbn in *; try lia.
  repeat split; try discriminate; try lia.
Qed.

(** X2. The help and test modes are taken only with exactly two arguments,
    the second being [--help] or [--test], whatever the file system holds;
    with any further argument the option is read as the root directory. *)
Theorem X2_parse_args_help_and_test_need_two_arguments :
  forall (path_exists : string -> bool) (args : list string),
    (forall message,
       ArgParser.parse_args path_exists args = inl (ArgParser.Help message)
       <-> exists exe, args = [exe; "--help"]
                       /\ message = ArgParser.get_help_string exe)
    /\ (ArgParser.parse_args path_exists args = inl ArgParser.Test
        <-> exists exe, args = [exe; "--test"])
    /\ (forall exe option sub rest,
          ArgParser.parse_args path_exists (exe :: option :: sub :: rest)
          = if path_exists option
            then inl (ArgParser.Search
                        {| ArgParser.root_dir := option;
                           ArgParser.follow_links := false;
                           ArgParser.substrings := sub :: rest |})
            else inr (ArgParser.root_missing option)).
Proof.
  intros path_exists args. split; [|split].
  - intros message. unfold ArgParser.parse_args.
    destruct args as [|exe [|a [|b rest]]]; cbn.
    + split; [discriminate | intros (exe & H & _); discriminate].
    + split; [discriminate | intros (exe' & H & _); discriminate].
    + destruct (String.eqb_spec a "--help") as [->|Hne].
      * split; [intros [= <-]; now exists exe |].
        intros (exe' & [= ->] & ->). reflexivity.
      * split.
        -- destruct (String.eqb a "--test"); discriminate.
        -- intros (exe' & [= -> ->] & _). contradiction.
    + split; [|intros (exe' & H & _); discriminate].
      destruct (path_exists a); discriminate.
  - unfold ArgParser.parse_args.
    destruct args as [|exe [|a [|b rest]]]; cbn.
    + split; [discriminate | intros (exe & H); discriminate].
    + split; [discriminate | intros (exe' & H); discriminate].
    + destruct (String.eqb_spec a "--help") as [->|Hne].
      * split; [discriminate | intros (exe' & [= ->]); discriminate].
      * destruct (String.eqb_spec a "--test") as [->|Hne'].
        -- split; [intros _; now exists exe | reflexivity].
        -- split; [discriminate | intros (exe' & [= -> ->]); contradiction].
    + split; [|intros (exe' & H); discriminate].
      destruct (path_exists a); discriminate.
  - intros exe option sub rest. unfold ArgParser.parse_args. cbn.
    now destruct (path_exists option).
Qed.

(** X3. [parse_args] throws in two cases only: fewer than three arguments
    that are not a help or test request, with the usage text of the
    executable's name (of [file-finder] when there is no argument at all);
    and three or more arguments whose root does not exist, with a message
    that quotes the root. *)
Theorem X3_parse_args_errors :
  forall (path_exists : string -> bool) (args : list string) (what : string),
    ArgParser.parse_args path_exists args = inr what
    <-> ((length args < 3)%nat
         /\ (forall exe, args <> [exe; "--help"] /\ args <> [exe; "--test"])
         /\ what = ArgParser.invalid_number
                     (match args with [] => "file-finder" | exe :: _ => exe end))
        \/ ((3 <= length args)%nat
            /\ path_exists (ArgParser.arg args 1) = false
            /\ what = ArgParser.root_missing (ArgParser.arg args 1)).
Proof.
  intros path_exists args what. unfold ArgParser.parse_args.
  destruct args as [|exe [|a [|b rest]]]; cbn.
  - split.
    + intros [= <-]. left. repeat split; (lia || discriminate).
    + intros [(_ & _ & ->)|(H & _)]; [reflexivity | lia].
  - split.
    + intros [= <-]. left. repeat split; (lia || discriminate).
    + intros [(_ & _ & ->)|(H & _)]; [reflexivity | lia].
  - destruct (String.eqb_spec a "--help") as [->|Hne].
    + split; [discriminate |].
      intros [(_ & H & _)|(H & _)]; [|lia]. now destruct (H exe).
    + destruct (String.eqb_spec a "--test") as [->|Hne'].
      * split; [discriminate |].
        intros [(_ & H & _)|(H & _)]; [|lia]. now destruct (H exe).
      * split.
        -- intros [= <-]. left. split; [lia |]. split; [|reflexivity].
           intros exe'. split; intros [= -> ->]; contradiction.
        -- intros [(_ & _ & ->)|(H & _)]; [reflexivity | lia].
  - destruct (path_exists a); cbn.
    + split; [discriminate |].
      intros [(H & _)|(_ & H & _)]; [lia | discriminate].
    + split.
      * intros [= <-]. right. repeat split. lia.
      * intros [(H & _)|(_ & _ & ->)]; [lia | reflexivity].
Qed.

(** ** [do_tests] and [main] *)

Lemma returned_status_is_success (i : Main.input) (schedule : list Main.actor)
    (s : Main.t) (status : Z) :
  Main.run schedule (Main.init i) = Some s ->
  Main.returned s = Some status -> status = Main.EXIT_SUCCESS.
Proof.
  intros Hrun Hret.
  refine (run_status_is_success _ _ _ Hrun _ status _).
  - intros st Hst. discriminate Hst.
  - unfold Main.returned in Hret. destruct (Main.coord s); congruence.
Qed.

Lemma do_tests_status (path_exists : string -> bool) :
  exists out, Tests.do_tests path_exists = Tests.Value (out, Main.EXIT_FAILURE).
Proof.
  unfold Tests.do_tests, Tests.test_help, Tests.test_root_dne.
  cbn [ArgParser.parse_args length Nat.eqb Nat.ltb Nat.leb andb ArgParser.arg
       lookup list_lookup default from_option Datatypes.id String.eqb Ascii.eqb
       Bool.eqb negb Tests.visit_help Z.eqb Main.EXIT_SUCCESS].
  destruct (path_exists "root_dne"); eexists; reflexivity.
Qed.

(** X4. [do_tests] always returns [EXIT_FAILURE], and no exception leaves
    it: [test_processor_find] reports an error on every run. The tests of
    the logger's prefixes, of the missing and too few arguments and of the
    help pass on [get_prefix] and [parse_args] as they are, and the test of
    the missing root passes exactly when no path named [root_dne] exists. *)
Theorem X4_do_tests_always_fails :
  forall (path_exists : string -> bool),
    (exists out, Tests.do_tests path_exists = Tests.Value (out, Main.EXIT_FAILURE))
    /\ Tests.passed Tests.test_logging_prefix = true
    /\ Tests.passed (Tests.test_no_args path_exists) = true
    /\ Tests.passed (Tests.test_too_few_args path_exists) = true
    /\ (exists r out, Tests.test_help path_exists = Tests.Value (r, out)
                      /\ Tests.passed r = true
                      /\ out = ArgParser.get_help_string "exe_name" +:+ nl)
    /\ Tests.passed (Tests.test_root_dne path_exists) = negb (path_exists "root_dne")
    /\ Tests.passed Tests.test_processor_find = false.
Proof.
  intros path_exists. split; [|split; [|split; [|split; [|split; [|split]]]]].
  - apply do_tests_status.
  - reflexivity.
  - reflexivity.
  - reflexivity.
  - eexists _, _. repeat split.
  - unfold Tests.test_root_dne. cbn. now destruct (path_exists "root_dne").
  - reflexivity.
Qed.

(** X5. When [main] exits, its status is [EXIT_SUCCESS] or [EXIT_FAILURE],
    and it is [EXIT_FAILURE] exactly when [parse_args] throws, in which
    case the exception's message and a newline are all that is written, or
    when the tests are asked for. A search that returns and a help request
    exit with [EXIT_SUCCESS]. *)
Theorem X5_main_exit_status :
  forall (w : Program.world) (argv : list string) (out : string) (status : Z),
    Program.main w argv = Some (out, status) ->
    (status = Main.EXIT_SUCCESS \/ status = Main.EXIT_FAILURE)
    /\ (status = Main.EXIT_FAILURE
        <-> (exists what, ArgParser.parse_args (Program.path_exists w) argv = inr what)
            \/ ArgParser.parse_args (Program.path_exists w) argv = inl ArgParser.Test)
    /\ (forall what,
          ArgParser.parse_args (Program.path_exists w) argv = inr what ->
          out = what +:+ nl).
Proof.
  intros w argv out status. unfold Program.main.
  destruct (ArgParser.parse_args (Program.path_exists w) argv)
    as [[settings| |message]|what] eqn:Hparse.
  - destruct (Main.run _ _) as [s|] eqn:Hrun; [|discriminate].
    destruct (Main.returned s) as [st|] eqn:Hret; [|discriminate].
    intros [= <- <-].
    rewrite (returned_status_is_success _ _ _ _ Hrun Hret).
    split; [now left |]. split; [|discriminate].
    split; [discriminate | intros [[what H]|H]; discriminate].
  - destruct (do_tests_status (Program.path_exists w)) as [o Ho].
    rewrite Ho. intros [= <- <-].
    split; [now right |]. split; [|discriminate].
    split; [now right | reflexivity].
  - intros [= <- <-]. split; [now left |]. split; [|discriminate].
    split; [discriminate | intros [[what H]|H]; discriminate].
  - intros [= <- <-]. split; [now right |]. split.
    + split; [intros _; left; now exists what | reflexivity].
    + now intros what' [= <-].
Qed.

Lemma X5_witness :
  Program.main
    {| Program.path_exists := fun _ => false;
       Program.ls := fun _ _ => PathFinder.Listing [] false;
       Program.typed := []; Program.schedule := [] |}
    ["file-finder"; "nowhere"; "report"]
  = Some (ArgParser.root_missing "nowhere" +:+ nl, Main.EXIT_FAILURE)
  /\ (Main.EXIT_FAILURE = Main.EXIT_SUCCESS \/ Main.EXIT_FAILURE = Main.EXIT_FAILURE).
Proof.
  split; [reflexivity |].
  exact (proj1 (X5_main_exit_status
                  {| Program.path_exists := fun _ => false;
                     Program.ls := fun _ _ => PathFinder.Listing [] false;
                     Program.typed := []; Program.schedule := [] |}
                  ["file-finder"; "nowhere"; "report"]
                  (ArgParser.root_missing "nowhere" +:+ nl) Main.EXIT_FAILURE eq_refl)).
Defined.

(** ** What the filename test looks at *)

Lemma has_separator_append (a b : string) :
  has_separator (a +:+ b) = has_separator a || has_separator b.
Proof.
  induction a as [|c a IH]; [reflexivity |].
  rewrite append_cons. cbn [has_separator].
  destruct (Ascii.eqb c separator); [reflexivity | exact IH].
Qed.

Lemma contains_separator (F S : string) :
  Str.contains F S -> has_separator S = true -> has_separator F = true.
Proof.
  intros (pre & post & ->) HS.
  rewrite !has_separator_append, HS. now rewrite orb_true_r.
Qed.

Lemma filename_no_separator (p : string) : has_separator (filename p) = false.
Proof.
  induction p as [|c p IH]; [reflexivity |].
  cbn [filename]. destruct (has_separator (String c p)) eqn:E; [exact IH | exact E].
Qed.

Lemma filename_plain (p : string) : has_separator p = false -> filename p = p.
Proof. destruct p as [|c p]; [reflexivity |]. cbn [filename]. now intros ->. Qed.

Lemma filename_after_separator (dir name : string) :
  has_separator name = false ->
  filename (dir +:+ String separator name) = name.
Proof.
  intros Hname. induction dir as [|c dir IH].
  - rewrite append_nil_l. cbn. now apply filename_plain.
  - rewrite append_cons. cbn [filename].
    replace (has_separator (String c (dir +:+ String separator name))) with true; [exact IH |].
    symmetry. change (String c (dir +:+ String separator name))
      with (String c dir +:+ String separator name).
    rewrite has_separator_append. cbn. now rewrite orb_true_r.
Qed.

(** X6. The test of a worker looks only at the text after the last
    separator of the path: the directories above an entry never make it
    match, and a target that holds a separator matches no entry at all. *)
Theorem X6_only_the_last_component_is_matched :
  (forall S e, has_separator S = true -> matching S e = false)
  /\ (forall S dir name d,
        has_separator name = false ->
        matching S (DirectoryEntry (dir +:+ String separator name) d) = Str.found name S)
  /\ (forall S tid dir name d,
        has_separator name = false -> Str.found name S = false ->
        Processor.match_record tid S (DirectoryEntry (dir +:+ String separator name) d)
        = None).
Proof.
  split; [|split].
  - intros S e HS. unfold matching.
    destruct (Str.found (filename (path e)) S) eqn:E; [|reflexivity].
    apply found_iff_contains in E.
    pose proof (contains_separator _ _ E HS) as H.
    now rewrite filename_no_separator in H.
  - intros S dir name d Hname. unfold matching. cbn [path].
    now rewrite filename_after_separator.
  - intros S tid dir name d Hname Hfound. unfold Processor.match_record. cbn [path].
    now rewrite filename_after_separator, Hfound.
Qed.

Example alice_bob_foo :
  let e := DirectoryEntry "E:/alice/bob/foo.txt" false in
  matching "alice" e = false /\ matching "bob" e = false /\ matching "foo" e = true.
Proof. repeat split. Qed.

(** ** Passes of a worker *)

Lemma pushes_app (rs1 rs2 : list SearchResult) (c : SearchResultContainer.t) :
  pushes (rs1 ++ rs2) c = pushes rs2 (pushes rs1 c).
Proof. unfold pushes. apply foldl_app. Qed.

(** X7. The queue is first in, first out across pushes: a pass over a
    queue to which an entry was pushed is the pass over the queue as it
    was, followed by the test of the new entry. A second pass right after
    a pass changes nothing. [push] adds one to [queue_size], and a pass
    brings it to zero. *)
Theorem X7_push_then_process :
  forall (tid : thread_id) (p : Processor.t) (c c' : SearchResultContainer.t)
         (e : directory_entry),
    Processor.process tid (Processor.push e p) c
    = ((Processor.process tid p c).1,
       Processor.process_front tid (Processor.target p) e (Processor.process tid p c).2)
    /\ Processor.process tid (Processor.process tid p c).1 c'
       = ((Processor.process tid p c).1, c')
    /\ Processor.queue_size (Processor.push e p) = S (Processor.queue_size p)
    /\ Processor.queue_size (Processor.process tid p c).1 = 0%nat.
Proof.
  intros tid p c c' e. rewrite !process_spec. cbn [fst snd Processor.push
    Processor.target Processor.queue Processor.should_continue].
  split; [|split; [|split]].
  - f_equal. rewrite List.filter_app, fmap_app, pushes_app. cbn [List.filter].
    unfold Processor.process_front, Processor.match_record, matching.
    destruct (Str.found (filename (path e)) (Processor.target p)); reflexivity.
  - reflexivity.
  - unfold Processor.queue_size. cbn. rewrite length_app. cbn. lia.
  - reflexivity.
Qed.

(** ** What a flush writes *)

Lemma contains_refl (s : string) : Str.contains s s.
Proof. exists EmptyString, EmptyString. now rewrite append_nil_l, append_nil_r. Qed.

Lemma contains_append_l (a b t : string) : Str.contains a t -> Str.contains (a +:+ b) t.
Proof.
  intros (pre & post & ->). exists pre, (post +:+ b). now rewrite !append_assoc.
Qed.

Lemma contains_append_r (a b t : string) : Str.contains b t -> Str.contains (a +:+ b) t.
Proof.
  intros (pre & post & ->). exists (a +:+ pre), post. now rewrite !append_assoc.
Qed.

Lemma join_all_contains (x : string) (l : list string) :
  x ∈ l -> Str.contains (join_all l) x.
Proof.
  induction l as [|y l IH]; intros Hin; [now apply elem_of_nil in Hin |].
  change (join_all (y :: l)) with (y +:+ join_all l).
  apply elem_of_cons in Hin as [->|Hin].
  - apply contains_append_l, contains_refl.
  - apply contains_append_r, IH, Hin.
Qed.

(** X8. A flush writes every key of the store: for each path held, the
    text written holds the path's block, which is the quoted path on a
    line followed by one line for each value recorded under it. *)
Theorem X8_dump_writes_every_key :
  forall (tid : thread_id) (c : SearchResultContainer.t) (k : string)
         (vs : list ResultValue),
    SearchResultContainer.store c !! k = Some vs ->
    Str.contains (SearchResultContainer.dump tid c).2
                 (SearchResultContainer.key_block (k, vs))
    /\ SearchResultContainer.key_block (k, vs)
       = quoted k +:+ nl +:+ join_all (SearchResultContainer.value_line <$> vs)
    /\ forall v, v ∈ vs ->
         Str.contains (SearchResultContainer.key_block (k, vs))
                      (SearchResultContainer.value_line v).
Proof.
  intros tid c k vs Hk. split; [|split].
  - unfold SearchResultContainer.dump. cbn [snd].
    apply contains_append_r. unfold SearchResultContainer.snapshot.
    apply join_all_contains, list_elem_of_fmap.
    exists (k, vs). split; [reflexivity |]. now apply elem_of_map_to_list.
  - reflexivity.
  - intros v Hv. unfold SearchResultContainer.key_block. cbn [fst snd].
    do 2 apply contains_append_r.
    apply join_all_contains, list_elem_of_fmap. now exists v.
Qed.

Lemma X8_witness :
  let c := pushes [mkSearchResult (DirectoryEntry "root/a.txt" false) "a" 3%N]
             SearchResultContainer.init in
  Str.contains (SearchResultContainer.dump 0%N c).2
               (SearchResultContainer.key_block ("root/a.txt", [("a", 3%N)])).
Proof.
  intros c.
  exact (proj1 (X8_dump_writes_every_key 0%N c "root/a.txt" [("a", 3%N)] eq_refl)).
Defined.

Lemma values_for_app (k : string) (rs1 rs2 : list SearchResult) :
  values_for k (rs1 ++ rs2) = values_for k rs1 ++ values_for k rs2.
Proof. unfold values_for. now rewrite List.filter_app, fmap_app. Qed.

(** X9. A flush between two batches of pushes splits the records without
    losing or repeating any: after the flush the store holds, under each
    path, the values of the second batch only, and the values of the two
    batches together are those of one batch made of both, in order. *)
Theorem X9_flush_between_pushes :
  forall (rs1 rs2 : list SearchResult) (c : SearchResultContainer.t)
         (tid : thread_id) (k : string),
    SearchResultContainer.store
      (pushes rs2 (SearchResultContainer.dump tid (pushes rs1 c)).1) !! k
    = match values_for k rs2 with [] => None | vs => Some vs end
    /\ values_for k (rs1 ++ rs2) = values_for k rs1 ++ values_for k rs2
    /\ pushes (rs1 ++ rs2) c = pushes rs2 (pushes rs1 c).
Proof.
  intros rs1 rs2 c tid k. split; [|split].
  - rewrite pushes_lookup, dump_store, lookup_empty.
    now destruct (values_for k rs2).
  - apply values_for_app.
  - apply pushes_app.
Qed.
